(** * sim_unicorn: taint bookkeeping of the native unicorn plugin

    A shallow embedding of [native/sim_unicorn.hpp]: the taint entities with
    their equality and hash, the per-instruction and per-block taint
    entries, the ordered set of instruction details, the register
    predicates of [State], and the page-granular shadow memory with its
    write journal.

    Conventions.
    - [uint64_t], [address_t], [vex_reg_offset_t], [vex_tmp_id_t] and
      [size_t] values are [Z]; where the source relies on a fixed width the
      wrap-around is written out ([uint32], [uint64]).
    - A [std::vector] is a [list].  A [std::unordered_set<taint_entity_t>]
      is a [list] as well (its elements in bucket order): its equality is
      the one the source defines with [operator==], which is not Leibniz
      equality, so the elements cannot be identified up front.
    - A [std::unordered_set<uint64_t>] ([RegisterSet], [TempSet]) is a
      [gset Z]; a [std::map] keyed by addresses whose values are looked up
      is a [gmap Z _]; a [std::map] or [std::set] that is compared or
      walked in key order is the sorted [list] of its entries. *)

From stdpp Require Import base gmap sets list.
From Stdlib Require Import ZArith Bool Sorted.

Local Open Scope Z_scope.

(** ** Constants and enumerations *)

Definition PAGE_SIZE : Z := 0x1000.
Definition PAGE_SHIFT : Z := 12.

(** Maximum size of a qemu/unicorn basic block. *)
Definition MAX_BB_SIZE : Z := 800.

Definition MAX_MEM_ACCESS_SIZE : Z := 8.
Definition MAX_REGISTER_BYTE_SIZE : Z := 32.

Definition uint32 (z : Z) : Z := z mod 2 ^ 32.
Definition uint64 (z : Z) : Z := z mod 2 ^ 64.

Inductive taint_t : Set :=
| TAINT_NONE
| TAINT_DIRTY
| TAINT_SYMBOLIC.

Inductive taint_entity_enum_t : Set :=
| TAINT_ENTITY_REG
| TAINT_ENTITY_TMP
| TAINT_ENTITY_MEM
| TAINT_ENTITY_NONE.

(** The enumerators' values ([uint8_t] underlying type). *)
Definition taint_entity_enum_val (t : taint_entity_enum_t) : Z :=
  match t with
  | TAINT_ENTITY_REG => 0
  | TAINT_ENTITY_TMP => 1
  | TAINT_ENTITY_MEM => 2
  | TAINT_ENTITY_NONE => 3
  end.

Definition taint_entity_enum_eqb (s t : taint_entity_enum_t) : bool :=
  taint_entity_enum_val s =? taint_entity_enum_val t.

(** ** Taint entities *)

(** [struct taint_entity_t]: all five members are always present; the
    source keeps them side by side instead of in a union. *)
#[local] Unset Elimination Schemes.
Inductive taint_entity_t : Type :=
  Build_taint_entity {
    entity_type : taint_entity_enum_t;
    reg_offset : Z;
    tmp_id : Z;
    mem_ref_entity_list : list taint_entity_t;
    instr_addr : Z
  }.
#[local] Set Elimination Schemes.

(** [std::vector<T>::operator==]: same size and element-wise [==]. *)
Fixpoint vector_eq {A : Type} (eqA : A → A → bool) (xs ys : list A) : bool :=
  match xs, ys with
  | [], [] => true
  | x :: xs', y :: ys' => eqA x y && vector_eq eqA xs' ys'
  | _, _ => false
  end.

(** [taint_entity_t::operator==].  The comparison of the two
    [mem_ref_entity_list] vectors calls [operator==] on the elements. *)
Fixpoint taint_entity_eq (a b : taint_entity_t) {struct a} : bool :=
  if negb (taint_entity_enum_eqb (entity_type a) (entity_type b)) then false
  else if taint_entity_enum_eqb (entity_type a) TAINT_ENTITY_REG then
    reg_offset a =? reg_offset b
  else if taint_entity_enum_eqb (entity_type a) TAINT_ENTITY_TMP then
    tmp_id a =? tmp_id b
  else
    (fix vec_eq (xs ys : list taint_entity_t) {struct xs} : bool :=
       match xs, ys with
       | [], [] => true
       | x :: xs', y :: ys' => taint_entity_eq x y && vec_eq xs' ys'
       | _, _ => false
       end) (mem_ref_entity_list a) (mem_ref_entity_list b).

(** [std::hash<T>]: the hash of the standard library for [uint64_t] is
    implementation-defined, so it is a parameter. *)
Class StdHash (A : Type) : Type := std_hash : A → Z.

(** [taint_entity_t::operator()], the hash behind
    [std::hash<taint_entity_t>]. *)
Fixpoint taint_entity_hash {hash64 : StdHash Z} (taint_entity : taint_entity_t) : Z :=
  match entity_type taint_entity with
  | TAINT_ENTITY_REG =>
      Z.lxor (std_hash (taint_entity_enum_val (entity_type taint_entity)))
             (std_hash (reg_offset taint_entity))
  | TAINT_ENTITY_TMP =>
      Z.lxor (std_hash (taint_entity_enum_val (entity_type taint_entity)))
             (std_hash (tmp_id taint_entity))
  | TAINT_ENTITY_MEM =>
      (fix loop (subs : list taint_entity_t) (taint_entity_hash_acc : Z) : Z :=
         match subs with
         | [] => taint_entity_hash_acc
         | sub_entity :: subs' =>
             loop subs' (Z.lxor taint_entity_hash_acc (taint_entity_hash sub_entity))
         end) (mem_ref_entity_list taint_entity)
              (std_hash (taint_entity_enum_val (entity_type taint_entity)))
  | TAINT_ENTITY_NONE =>
      std_hash (taint_entity_enum_val (entity_type taint_entity))
  end.

#[export] Instance taint_entity_std_hash {hash64 : StdHash Z} : StdHash taint_entity_t :=
  taint_entity_hash.

(** The hash of libstdc++ for integers, the identity, as a sample. *)
Definition identity_hash : StdHash Z := λ x, x.

(** The same entity used in another instruction. *)
Definition set_instr_addr (addr : Z) (e : taint_entity_t) : taint_entity_t :=
  {| entity_type := entity_type e;
     reg_offset := reg_offset e;
     tmp_id := tmp_id e;
     mem_ref_entity_list := mem_ref_entity_list e;
     instr_addr := addr |}.

(** Two vectors of entities whose elements are pairwise [==]. *)
Definition entity_lists_eq (xs ys : list taint_entity_t) : Prop :=
  Forall2 (λ x y, taint_entity_eq x y = true) xs ys.

(** Equality by variant payload, for the four variants [Reg], [Tmp], [Mem]
    and [None] of the data model: the same variant and, for [Reg], the same
    register; for [Tmp], the same temp; for [Mem], [==] sub-entities; [None]
    has no payload. *)
Definition variant_payload_eq (a b : taint_entity_t) : Prop :=
  entity_type a = entity_type b
  ∧ match entity_type a with
    | TAINT_ENTITY_REG => reg_offset a = reg_offset b
    | TAINT_ENTITY_TMP => tmp_id a = tmp_id b
    | TAINT_ENTITY_MEM =>
        entity_lists_eq (mem_ref_entity_list a) (mem_ref_entity_list b)
    | TAINT_ENTITY_NONE => True
    end.

(** What [operator==] compares: as [variant_payload_eq], except that every
    entity that is neither [Reg] nor [Tmp] has its [mem_ref_entity_list]
    compared. *)
Definition compared_members_eq (a b : taint_entity_t) : Prop :=
  entity_type a = entity_type b
  ∧ match entity_type a with
    | TAINT_ENTITY_REG => reg_offset a = reg_offset b
    | TAINT_ENTITY_TMP => tmp_id a = tmp_id b
    | TAINT_ENTITY_MEM | TAINT_ENTITY_NONE =>
        entity_lists_eq (mem_ref_entity_list a) (mem_ref_entity_list b)
    end.

(** Sample entities. *)
Definition reg_entity (reg addr : Z) : taint_entity_t :=
  Build_taint_entity TAINT_ENTITY_REG reg 0 [] addr.

Definition tmp_entity (tmp addr : Z) : taint_entity_t :=
  Build_taint_entity TAINT_ENTITY_TMP 0 tmp [] addr.

Definition mem_entity (subs : list taint_entity_t) (addr : Z) : taint_entity_t :=
  Build_taint_entity TAINT_ENTITY_MEM 0 0 subs addr.

Definition none_entity (subs : list taint_entity_t) : taint_entity_t :=
  Build_taint_entity TAINT_ENTITY_NONE 0 0 subs 0.

(** [std::unordered_set<taint_entity_t>::operator==]: equal sizes, and every
    element of the left set is found in the right one.  The lookup goes
    through the hash and then [operator==]; as the hash agrees on [==]
    elements, it finds an element exactly when one [==] to it is present. *)
Definition unordered_set_eq (a b : list taint_entity_t) : bool :=
  (Z.of_nat (length a) =? Z.of_nat (length b))
  && forallb (λ x, existsb (taint_entity_eq x) b) a.

(** [std::pair<T1, T2>::operator==]. *)
Definition pair_eq {A B : Type} (eqA : A → A → bool) (eqB : B → B → bool)
    (p q : A * B) : bool :=
  eqA p.1 q.1 && eqB p.2 q.2.

(** ** Instruction details and their ordered set *)

Record memory_value_t : Type := Build_memory_value {
  mv_address : Z;
  mv_value : list Z;   (* uint8_t value[MAX_MEM_ACCESS_SIZE] *)
  mv_size : Z
}.

(** [memory_value_t::operator==]; [memcmp] looks at the first [size] bytes. *)
Definition memory_value_eq (a b : memory_value_t) : bool :=
  if negb (mv_address a =? mv_address b) || negb (mv_size a =? mv_size b)
  then false
  else vector_eq Z.eqb (take (Z.to_nat (mv_size a)) (mv_value a))
                       (take (Z.to_nat (mv_size a)) (mv_value b)).

Record instr_details_t : Type := Build_instr_details {
  id_instr_addr : Z;          (* member instr_addr *)
  has_memory_dep : bool;
  memory_value : memory_value_t
}.

(** [instr_details_t::operator==]. *)
Definition instr_details_eq (a b : instr_details_t) : bool :=
  (id_instr_addr a =? id_instr_addr b)
  && eqb (has_memory_dep a) (has_memory_dep b)
  && memory_value_eq (memory_value a) (memory_value b).

(** [instr_details_t::operator<]. *)
Definition instr_details_lt (a b : instr_details_t) : bool :=
  id_instr_addr a <? id_instr_addr b.

(** The entries of a set are in strictly increasing address order. *)
Definition addr_lt (a b : instr_details_t) : Prop :=
  id_instr_addr a < id_instr_addr b.

(** [std::set<T>] with the comparison [lt]: the entries in increasing
    order.  [std_set_insert] is [std::set::insert]: the new element is
    placed before the first entry it is less than, and it is dropped when an
    entry equivalent to it (neither less than the other) is already there. *)
Fixpoint std_set_insert {A : Type} (lt : A → A → bool) (x : A) (s : list A)
    : list A :=
  match s with
  | [] => [x]
  | y :: s' =>
      if lt x y then x :: s
      else if lt y x then y :: std_set_insert lt x s'
      else s
  end.

(** A set built by inserting [xs] one after the other into the empty set. *)
Definition std_set_of {A : Type} (lt : A → A → bool) (xs : list A) : list A :=
  fold_left (λ s x, std_set_insert lt x s) xs [].

Record instr_slice_details_t : Type := Build_instr_slice_details {
  dependent_instrs : list instr_details_t;   (* std::set<instr_details_t> *)
  concrete_registers : gset Z
}.

(** Adding an instruction to the slice of an instruction. *)
Definition slice_add_instr (x : instr_details_t) (d : instr_slice_details_t)
    : instr_slice_details_t :=
  {| dependent_instrs := std_set_insert instr_details_lt x (dependent_instrs d);
     concrete_registers := concrete_registers d |}.

(** ** Stop reasons *)

Inductive stop_t : Set :=
| STOP_NORMAL
| STOP_STOPPOINT
| STOP_ERROR
| STOP_SYSCALL
| STOP_EXECNONE
| STOP_ZEROPAGE
| STOP_NOSTART
| STOP_SEGFAULT
| STOP_ZERO_DIV
| STOP_NODECODE
| STOP_HLT
| STOP_VEX_LIFT_FAILED
| STOP_SYMBOLIC_CONDITION
| STOP_SYMBOLIC_PC
| STOP_SYMBOLIC_READ_ADDR
| STOP_SYMBOLIC_READ_SYMBOLIC_TRACKING_DISABLED
| STOP_SYMBOLIC_WRITE_ADDR
| STOP_SYMBOLIC_BLOCK_EXIT_STMT
| STOP_MULTIPLE_MEMORY_READS
| STOP_UNSUPPORTED_STMT_PUTI
| STOP_UNSUPPORTED_STMT_STOREG
| STOP_UNSUPPORTED_STMT_LOADG
| STOP_UNSUPPORTED_STMT_CAS
| STOP_UNSUPPORTED_STMT_LLSC
| STOP_UNSUPPORTED_STMT_DIRTY
| STOP_UNSUPPORTED_STMT_UNKNOWN
| STOP_UNSUPPORTED_EXPR_GETI
| STOP_UNSUPPORTED_EXPR_UNKNOWN
| STOP_UNKNOWN_MEMORY_WRITE
| STOP_UNKNOWN_MEMORY_READ.

(** ** Taint entries of instructions and blocks *)

(** [taint_vector_t]: sinks paired with the set of their sources. *)
Definition taint_vector_t : Type :=
  list (taint_entity_t * list taint_entity_t).

Definition taint_vector_eq : taint_vector_t → taint_vector_t → bool :=
  vector_eq (pair_eq taint_entity_eq unordered_set_eq).

Record instruction_taint_entry_t : Type := Build_instruction_taint_entry {
  taint_sink_src_map : taint_vector_t;
  dependencies_to_save : list taint_entity_t;   (* unordered_set *)
  ite_cond_entity_list : list taint_entity_t;   (* unordered_set *)
  modified_regs : list (Z * bool);
  has_memory_read : bool;
  has_memory_write : bool
}.

(** [instruction_taint_entry_t::operator==]. *)
Definition instruction_taint_entry_eq (a b : instruction_taint_entry_t) : bool :=
  taint_vector_eq (taint_sink_src_map a) (taint_sink_src_map b)
  && unordered_set_eq (dependencies_to_save a) (dependencies_to_save b)
  && eqb (has_memory_read a) (has_memory_read b)
  && eqb (has_memory_write a) (has_memory_write b).

(** [instruction_taint_entry_t::reset]. *)
Definition instruction_taint_entry_reset (e : instruction_taint_entry_t)
    : instruction_taint_entry_t :=
  {| taint_sink_src_map := [];
     dependencies_to_save := [];
     ite_cond_entity_list := [];
     modified_regs := [];
     has_memory_read := false;
     has_memory_write := false |}.

(** Sample entries: an instruction that moves a temp into a register. *)
Definition sample_instr_entry (ite : list taint_entity_t)
    (regs : list (Z * bool)) : instruction_taint_entry_t :=
  {| taint_sink_src_map := [(reg_entity 16 4096, [tmp_entity 1 0])];
     dependencies_to_save := [reg_entity 24 0];
     ite_cond_entity_list := ite;
     modified_regs := regs;
     has_memory_read := true;
     has_memory_write := false |}.

Record block_taint_entry_t : Type := Build_block_taint_entry {
  (* std::map<address_t, instruction_taint_entry_t>, in key order *)
  block_instrs_taint_data_map : list (Z * instruction_taint_entry_t);
  exit_stmt_guard_expr_deps : list taint_entity_t;   (* unordered_set *)
  exit_stmt_instr_addr : Z;
  has_unsupported_stmt_or_expr_type : bool;
  unsupported_stmt_stop_reason : stop_t
}.

(** [std::map<K, V>::operator==]: same size and pairwise equal entries in
    key order. *)
Definition std_map_eq {V : Type} (eqV : V → V → bool)
    : list (Z * V) → list (Z * V) → bool :=
  vector_eq (pair_eq Z.eqb eqV).

(** [block_taint_entry_t::operator==]. *)
Definition block_taint_entry_eq (a b : block_taint_entry_t) : bool :=
  std_map_eq instruction_taint_entry_eq
    (block_instrs_taint_data_map a) (block_instrs_taint_data_map b)
  && unordered_set_eq (exit_stmt_guard_expr_deps a) (exit_stmt_guard_expr_deps b).

Definition sample_block_entry (exit_addr : Z) (unsupported : bool)
    (reason : stop_t) : block_taint_entry_t :=
  {| block_instrs_taint_data_map := [(4096, sample_instr_entry [] [(16, false)])];
     exit_stmt_guard_expr_deps := [tmp_entity 1 0];
     exit_stmt_instr_addr := exit_addr;
     has_unsupported_stmt_or_expr_type := unsupported;
     unsupported_stmt_stop_reason := reason |}.

(** ** The state of the plugin *)

(** Modelled from the spec: the member [clean] of [mem_access_t].  The
    header declares it as an [int] and leaves its encoding to code that is
    not in the header; it is "a snapshot of the prior taint of each
    overwritten byte", kept here as one taint per byte of the write.  The
    other members are those of the header, except the saved bytes [value],
    which belong to the engine's memory. *)
Record mem_access_t : Type := Build_mem_access {
  address : Z;
  size : Z;
  clean : list taint_t;
  is_symbolic : bool
}.

(** Enumerators and register identifiers that come from the headers of
    unicorn and VEX.  The case labels of a [switch] are pairwise distinct. *)
Class ExternConstants : Type := {
  UC_ARCH_ARM : Z;
  UC_ARCH_ARM64 : Z;
  UC_ARCH_MIPS : Z;
  UC_ARCH_X86 : Z;
  UC_MODE_64 : Z;
  UC_X86_REG_RIP : Z;
  UC_X86_REG_EIP : Z;
  UC_ARM_REG_PC : Z;
  UC_ARM64_REG_PC : Z;
  UC_MIPS_REG_PC : Z;
  UC_X86_REG_RSP : Z;
  UC_X86_REG_ESP : Z;
  UC_ARM_REG_SP : Z;
  UC_ARM64_REG_SP : Z;
  UC_MIPS_REG_SP : Z;
  OFFSET_amd64_RIP : Z;
  OFFSET_x86_EIP : Z;
  OFFSET_arm_R15T : Z;
  OFFSET_arm64_PC : Z;
  OFFSET_mips64_PC : Z;
  OFFSET_mips32_PC : Z;
  VexArch_INVALID : Z;
  uc_arch_labels_distinct :
    NoDup [UC_ARCH_X86; UC_ARCH_ARM; UC_ARCH_ARM64; UC_ARCH_MIPS]
}.

(** The members of [class State] that the taint bookkeeping reads and
    writes. *)
Record State : Type := Build_State {
  mem_writes : list mem_access_t;
  block_symbolic_registers : gset Z;
  block_concrete_registers : gset Z;
  block_symbolic_temps : gset Z;
  (* std::map<address_t, taint_t *>, each value a PageBitmap *)
  active_pages : gmap Z (list taint_t);
  arch : Z;
  mode : Z;
  vex_guest : Z;
  symbolic_registers : gset Z;
  blacklisted_registers : gset Z;
  vex_sub_reg_map : gmap Z Z;
  artificial_vex_registers : gset Z
}.

(** [std::unordered_set<uint64_t>::count]. *)
Definition unordered_set_count (x : Z) (s : gset Z) : Z :=
  if decide (x ∈ s) then 1 else 0.

Section inline_functions.
Context `{!ExternConstants}.

Definition is_symbolic_tracking_disabled (s : State) : bool :=
  vex_guest s =? VexArch_INVALID.

Definition get_full_register_offset (s : State) (reg_offset : Z) : Z :=
  match vex_sub_reg_map s !! reg_offset with
  | Some full => full
  | None => reg_offset
  end.

Definition is_valid_dependency_register (s : State) (reg_offset : Z) : bool :=
  (unordered_set_count reg_offset (artificial_vex_registers s) =? 0)
  && (unordered_set_count reg_offset (blacklisted_registers s) =? 0).

Definition is_blacklisted_register (s : State) (reg_offset : Z) : bool :=
  unordered_set_count reg_offset (blacklisted_registers s) >? 0.

(** The three lookups return [unsigned int]; the [-1] of the [default]
    case is converted to that type. *)
Definition arch_pc_reg_vex_offset (s : State) : Z :=
  uint32
    (if arch s =? UC_ARCH_X86 then
       if mode s =? UC_MODE_64 then OFFSET_amd64_RIP else OFFSET_x86_EIP
     else if arch s =? UC_ARCH_ARM then OFFSET_arm_R15T
     else if arch s =? UC_ARCH_ARM64 then OFFSET_arm64_PC
     else if arch s =? UC_ARCH_MIPS then
       if mode s =? UC_MODE_64 then OFFSET_mips64_PC else OFFSET_mips32_PC
     else -1).

Definition arch_pc_reg (s : State) : Z :=
  uint32
    (if arch s =? UC_ARCH_X86 then
       if mode s =? UC_MODE_64 then UC_X86_REG_RIP else UC_X86_REG_EIP
     else if arch s =? UC_ARCH_ARM then UC_ARM_REG_PC
     else if arch s =? UC_ARCH_ARM64 then UC_ARM64_REG_PC
     else if arch s =? UC_ARCH_MIPS then UC_MIPS_REG_PC
     else -1).

Definition arch_sp_reg (s : State) : Z :=
  uint32
    (if arch s =? UC_ARCH_X86 then
       if mode s =? UC_MODE_64 then UC_X86_REG_RSP else UC_X86_REG_ESP
     else if arch s =? UC_ARCH_ARM then UC_ARM_REG_SP
     else if arch s =? UC_ARCH_ARM64 then UC_ARM64_REG_SP
     else if arch s =? UC_ARCH_MIPS then UC_MIPS_REG_SP
     else -1).
End inline_functions.

(** The value the lookups return for "no such register". *)
Definition NO_SUCH_REGISTER : Z := uint32 (-1).

(** The architectures the lookups know. *)
Definition supported_arch `{!ExternConstants} (a : Z) : Prop :=
  a ∈ [UC_ARCH_X86; UC_ARCH_ARM; UC_ARCH_ARM64; UC_ARCH_MIPS].

(** ** Shadow memory

    [PageBitmap] is [taint_t[PAGE_SIZE]]: a page is the list of its
    [PAGE_SIZE] taint bytes. *)

Definition page_wf (page : list taint_t) : Prop :=
  Z.of_nat (length page) = PAGE_SIZE.

(** Every active page is a [PageBitmap]. *)
Definition pages_wf (s : State) : Prop :=
  map_Forall (λ _ page, page_wf page) (active_pages s).

(** A newly allocated [PageBitmap], every byte [TAINT_NONE]. *)
Definition new_page : list taint_t :=
  replicate (Z.to_nat PAGE_SIZE) TAINT_NONE.

(** Modelled from the spec: the body of [State::page_lookup] and
    [State::page_activate] is not in the header.  "Pages are addressed by
    [addr >> 12]"; within its page a byte has the low [PAGE_SHIFT] bits of
    its address as index. *)
Definition page_index (addr : Z) : Z := Z.shiftr addr PAGE_SHIFT.

Definition page_offset (addr : Z) : Z := Z.land addr (PAGE_SIZE - 1).

Definition set_active_pages (pages : gmap Z (list taint_t)) (s : State) : State :=
  {| mem_writes := mem_writes s;
     block_symbolic_registers := block_symbolic_registers s;
     block_concrete_registers := block_concrete_registers s;
     block_symbolic_temps := block_symbolic_temps s;
     active_pages := pages;
     arch := arch s;
     mode := mode s;
     vex_guest := vex_guest s;
     symbolic_registers := symbolic_registers s;
     blacklisted_registers := blacklisted_registers s;
     vex_sub_reg_map := vex_sub_reg_map s;
     artificial_vex_registers := artificial_vex_registers s |}.

(** Modelled from the spec: [State::page_lookup], "lookup(addr)" that
    yields the page of the byte "or null". *)
Definition page_lookup (s : State) (addr : Z) : option (list taint_t) :=
  active_pages s !! page_index addr.

(** Modelled from the spec: [State::page_activate] with its default
    arguments (no initial taint).  A shadow page is "allocated on first
    touch"; the operation "is idempotent and preserves bits already set". *)
Definition page_activate (addr : Z) (s : State) : State :=
  match page_lookup s addr with
  | Some _ => s
  | None => set_active_pages (<[page_index addr := new_page]> (active_pages s)) s
  end.

(** Modelled from the spec: reading the taint byte that "lookup(addr)"
    yields; a byte of a page that was never touched has no taint. *)
Definition taint_at (s : State) (addr : Z) : taint_t :=
  match page_lookup s addr with
  | Some page => default TAINT_NONE (page !! Z.to_nat (page_offset addr))
  | None => TAINT_NONE
  end.

(** Modelled from the spec: writing the taint byte that "lookup(addr)"
    yields, its page being "allocated on first touch". *)
Definition set_taint (addr : Z) (t : taint_t) (s : State) : State :=
  let s' := page_activate addr s in
  match page_lookup s' addr with
  | Some page =>
      set_active_pages
        (<[page_index addr := <[Z.to_nat (page_offset addr) := t]> page]>
           (active_pages s')) s'
  | None => s'
  end.

(** The byte addresses of an access of [size] bytes at [addr]. *)
Definition access_range (addr size : Z) : list Z :=
  (λ i, uint64 (addr + i)) <$> seqZ 0 size.

(** The taint of the bytes of an access, as [clean] stores it. *)
Definition prior_taint (s : State) (addr size : Z) : list taint_t :=
  taint_at s <$> access_range addr size.

(** ** The write journal *)

Definition set_mem_writes (ws : list mem_access_t) (s : State) : State :=
  {| mem_writes := ws;
     block_symbolic_registers := block_symbolic_registers s;
     block_concrete_registers := block_concrete_registers s;
     block_symbolic_temps := block_symbolic_temps s;
     active_pages := active_pages s;
     arch := arch s;
     mode := mode s;
     vex_guest := vex_guest s;
     symbolic_registers := symbolic_registers s;
     blacklisted_registers := blacklisted_registers s;
     vex_sub_reg_map := vex_sub_reg_map s;
     artificial_vex_registers := artificial_vex_registers s |}.

(** The three register and temp sets that taint propagation updates. *)
Definition set_taint_sets (sym blk_sym blk_conc temps : gset Z) (s : State)
    : State :=
  {| mem_writes := mem_writes s;
     block_symbolic_registers := blk_sym;
     block_concrete_registers := blk_conc;
     block_symbolic_temps := temps;
     active_pages := active_pages s;
     arch := arch s;
     mode := mode s;
     vex_guest := vex_guest s;
     symbolic_registers := sym;
     blacklisted_registers := blacklisted_registers s;
     vex_sub_reg_map := vex_sub_reg_map s;
     artificial_vex_registers := artificial_vex_registers s |}.

(** Modelled from the spec: the body of [State::log_write] is not in the
    header.  It "records the write and marks the affected shadow bytes
    DIRTY (if concrete; else SYMBOLIC), after saving the prior taint in the
    entry itself".  The caller hands in the snapshot [clean]; the boolean
    result of the source is left out, every write is recorded. *)
Definition log_write (address size : Z) (clean : list taint_t)
    (is_write_symbolic : bool) (s : State) : State :=
  let record :=
    {| address := address; size := size; clean := clean;
       is_symbolic := is_write_symbolic |} in
  let mark := if is_write_symbolic then TAINT_SYMBOLIC else TAINT_DIRTY in
  let s' := foldl (λ st a, set_taint a mark st) s (access_range address size) in
  set_mem_writes (mem_writes s ++ [record]) s'.

(** Modelled from the spec: the step of [State::rollback] for one journal
    entry, "restoring prior taint byte-by-byte". *)
Definition restore_write (w : mem_access_t) (s : State) : State :=
  foldl (λ st at_, set_taint at_.1 at_.2 st) s
        (zip (access_range (address w) (size w)) (clean w)).

(** Modelled from the spec: the loop of [State::rollback], which "iterates
    the journal in reverse". *)
Definition undo_writes (ws : list mem_access_t) (s : State) : State :=
  foldl (λ st w, restore_write w st) s (reverse ws).

(** Two states whose shadow memories hold the same taint for every byte. *)
Definition shadow_eq (s1 s2 : State) : Prop :=
  ∀ addr : Z, taint_at s1 addr = taint_at s2 addr.

(** Modelled from the spec: what [State::commit] does to a taint byte;
    [DIRTY] "was only a pending commit marker". *)
Definition commit_taint (t : taint_t) : taint_t :=
  match t with
  | TAINT_DIRTY => TAINT_NONE
  | _ => t
  end.

(** Modelled from the spec: register and temp marking of section 4.4, whose
    bodies are not in the header.  With [do_block_level] the mark goes to
    the sets of the block ("adds to [block_symbolic_registers] and removes
    from [block_concrete_registers]"), otherwise to the persistent set.
    "Sub-register writes first canonicalize via [vex_sub_reg_map]." *)
Definition mark_register_symbolic
    (reg_offset : Z) (do_block_level : bool) (s : State) : State :=
  let r := get_full_register_offset s reg_offset in
  if do_block_level then
    set_taint_sets (symbolic_registers s)
      ({[r]} ∪ block_symbolic_registers s) (block_concrete_registers s ∖ {[r]})
      (block_symbolic_temps s) s
  else
    set_taint_sets ({[r]} ∪ symbolic_registers s)
      (block_symbolic_registers s) (block_concrete_registers s)
      (block_symbolic_temps s) s.

(** Modelled from the spec: [State::mark_register_concrete], the
    counterpart of [mark_register_symbolic]. *)
Definition mark_register_concrete
    (reg_offset : Z) (do_block_level : bool) (s : State) : State :=
  let r := get_full_register_offset s reg_offset in
  if do_block_level then
    set_taint_sets (symbolic_registers s)
      (block_symbolic_registers s ∖ {[r]}) ({[r]} ∪ block_concrete_registers s)
      (block_symbolic_temps s) s
  else
    set_taint_sets (symbolic_registers s ∖ {[r]})
      (block_symbolic_registers s) (block_concrete_registers s)
      (block_symbolic_temps s) s.

(** Modelled from the spec: [State::mark_temp_symbolic]; "temps are
    block-local". *)
Definition mark_temp_symbolic (temp_id : Z) (s : State) : State :=
  set_taint_sets (symbolic_registers s)
    (block_symbolic_registers s) (block_concrete_registers s)
    ({[temp_id]} ∪ block_symbolic_temps s) s.

(** Modelled from the spec: the body of [State::commit] is not in the
    header.  It "clears DIRTY back to NONE in shadow memory", "propagates
    SYMBOLIC marks unchanged, and empties the journal"; the register
    "writes propagate to the persistent set"; the sets of the block and its
    temps are "discarded at block end".  [mem_writes_taint_map] is not part
    of the model. *)
Definition commit (s : State) : State :=
  let pages := fmap (M := gmap Z) (fmap (M := list) commit_taint) (active_pages s) in
  let sym :=
    (symbolic_registers s ∪ block_symbolic_registers s)
      ∖ block_concrete_registers s in
  set_taint_sets sym ∅ ∅ ∅ (set_mem_writes [] (set_active_pages pages s)).

(** Modelled from the spec: the body of [State::rollback] is not in the
    header.  It "iterates the journal in reverse, restoring prior taint
    byte-by-byte, and clears the journal"; the sets of the block and its
    temps are "discarded at block end". *)
Definition rollback (s : State) : State :=
  let s' := undo_writes (mem_writes s) s in
  set_taint_sets (symbolic_registers s') ∅ ∅ ∅ (set_mem_writes [] s').

(** Modelled from the spec: the state at the entry of a block.  "Journal
    entries live for the span of a single engine block", and so do the "two
    sets per block" and the temps: at the entry there are none. *)
Definition block_entry (s : State) : Prop :=
  mem_writes s = [] ∧ block_symbolic_registers s = ∅
  ∧ block_concrete_registers s = ∅ ∧ block_symbolic_temps s = ∅.

(** Modelled from the spec: what happens to the taint state while the
    engine runs a block.  Memory writes are journalled, [clean] being the
    "snapshot of the prior taint of each overwritten byte", and propagation
    marks registers and temps at block level. *)
Inductive block_step : State → State → Prop :=
| step_log_write s addr sz is_write_symbolic :
    block_step s
      (log_write addr sz (prior_taint s addr sz) is_write_symbolic s)
| step_mark_register_symbolic s reg_offset :
    block_step s (mark_register_symbolic reg_offset true s)
| step_mark_register_concrete s reg_offset :
    block_step s (mark_register_concrete reg_offset true s)
| step_mark_temp_symbolic s temp_id :
    block_step s (mark_temp_symbolic temp_id s).

(** What holds of the state [s] at any point of a block entered in [s0]:
    the persistent register set is the one of the entry, and undoing the
    journal gives back the shadow memory of the entry. *)
Definition block_invariant (s0 s : State) : Prop :=
  pages_wf s
  ∧ symbolic_registers s = symbolic_registers s0
  ∧ shadow_eq (undo_writes (mem_writes s) s) s0.

(** Sample values for the external constants. *)
#[local] Instance sample_constants : ExternConstants := {|
  UC_ARCH_ARM := 1;
  UC_ARCH_ARM64 := 2;
  UC_ARCH_MIPS := 3;
  UC_ARCH_X86 := 4;
  UC_MODE_64 := 8;
  UC_X86_REG_RIP := 41;
  UC_X86_REG_EIP := 26;
  UC_ARM_REG_PC := 11;
  UC_ARM64_REG_PC := 260;
  UC_MIPS_REG_PC := 1;
  UC_X86_REG_RSP := 44;
  UC_X86_REG_ESP := 30;
  UC_ARM_REG_SP := 12;
  UC_ARM64_REG_SP := 4;
  UC_MIPS_REG_SP := 31;
  OFFSET_amd64_RIP := 184;
  OFFSET_x86_EIP := 68;
  OFFSET_arm_R15T := 68;
  OFFSET_arm64_PC := 272;
  OFFSET_mips64_PC := 272;
  OFFSET_mips32_PC := 136;
  VexArch_INVALID := 1024;
  uc_arch_labels_distinct := bool_decide_unpack (NoDup [4; 1; 2; 3]) I
|}.

(** A sample state at the entry of a block: one shadow page is active and
    its byte at 0x8003 is symbolic; register 16 is symbolic, register 1000
    is artificial and register 184 is blacklisted; offset 17 is a
    sub-register of register 16. *)
Definition sample_state (a m : Z) : State :=
  {| mem_writes := [];
     block_symbolic_registers := ∅;
     block_concrete_registers := ∅;
     block_symbolic_temps := ∅;
     active_pages := {[ 8 := <[3%nat := TAINT_SYMBOLIC]> new_page ]};
     arch := a;
     mode := m;
     vex_guest := 0;
     symbolic_registers := {[ 16 ]};
     blacklisted_registers := {[ 184 ]};
     vex_sub_reg_map := {[ 17 := 16 ]};
     artificial_vex_registers := {[ 1000 ]} |}.

(** The sample state after a block has written eight concrete bytes at
    0x8000, four symbolic bytes at 0x8ffe (across a page boundary, onto a
    page not yet active) and two concrete bytes at 0x8004, and has marked
    register 16 concrete, register 24 and temp 5 symbolic. *)
Definition sample_state_1 : State :=
  log_write 0x8000 8 (prior_taint (sample_state 4 8) 0x8000 8) false
    (sample_state 4 8).

Definition sample_state_2 : State :=
  log_write 0x8ffe 4 (prior_taint sample_state_1 0x8ffe 4) true sample_state_1.

Definition sample_state_3 : State :=
  log_write 0x8004 2 (prior_taint sample_state_2 0x8004 2) false sample_state_2.

Definition sample_state_4 : State :=
  mark_register_concrete 17 true sample_state_3.

Definition sample_state_5 : State :=
  mark_register_symbolic 24 true sample_state_4.

Definition sample_state_6 : State :=
  mark_temp_symbolic 5 sample_state_5.

(** ** The block-size limit *)

Inductive block_verdict : Set :=
| BLOCK_ANALYZED
| BLOCK_REFUSED_REENTER_AT_NEXT_INSTR.

(** Modelled from the spec: the body of [State::step], which applies
    [MAX_BB_SIZE], is not in the header.  "The analyzer refuses IR blocks
    longer than 800 bytes of guest code and the controller asks the engine
    to re-enter at the next instruction." *)
Definition check_block_size (block_size : Z) : block_verdict :=
  if MAX_BB_SIZE <? block_size then BLOCK_REFUSED_REENTER_AT_NEXT_INSTR
  else BLOCK_ANALYZED.

(** ** Containers of taint entities *)

(** A [std::unordered_set<taint_entity_t>] holds no two elements that are
    [==]: an insertion of an element [==] to a present one is dropped. *)
Fixpoint unordered_set_wf (s : list taint_entity_t) : bool :=
  match s with
  | [] => true
  | x :: s' => negb (existsb (taint_entity_eq x) s') && unordered_set_wf s'
  end.

(** Every element of [a] has an element of [b] that is [==] to it. *)
Definition unordered_set_incl (a b : list taint_entity_t) : Prop :=
  ∀ x, x ∈ a → ∃ y, y ∈ b ∧ taint_entity_eq x y = true.

(** The sets inside an instruction taint entry and a block taint entry. *)
Definition instruction_taint_entry_wf (e : instruction_taint_entry_t) : Prop :=
  Forall (λ p, unordered_set_wf p.2 = true) (taint_sink_src_map e)
  ∧ unordered_set_wf (dependencies_to_save e) = true
  ∧ unordered_set_wf (ite_cond_entity_list e) = true.

Definition block_taint_entry_wf (e : block_taint_entry_t) : Prop :=
  Forall (λ p, instruction_taint_entry_wf p.2) (block_instrs_taint_data_map e)
  ∧ unordered_set_wf (exit_stmt_guard_expr_deps e) = true.

(** The bucket of an entity in a hash table of [bucket_count] buckets. *)
Definition bucket_index {hash64 : StdHash Z} (bucket_count : Z)
    (e : taint_entity_t) : Z :=
  taint_entity_hash e mod bucket_count.

(** [std::unordered_set<taint_entity_t>::find]: only the elements in the
    bucket of [x] are compared with [x]. *)
Definition unordered_set_find {hash64 : StdHash Z} (bucket_count : Z)
    (x : taint_entity_t) (s : list taint_entity_t) : bool :=
  existsb (λ y, (bucket_index bucket_count y =? bucket_index bucket_count x)
                && taint_entity_eq x y) s.

(** A memory value with other bytes in [value]. *)
Definition set_mv_value (bytes : list Z) (m : memory_value_t) : memory_value_t :=
  {| mv_address := mv_address m; mv_value := bytes; mv_size := mv_size m |}.

(** A sub-register map that names full registers only: no register that a
    sub-register maps to is itself mapped further. *)
Definition sub_reg_map_flat (s : State) : Prop :=
  ∀ sub full : Z,
    vex_sub_reg_map s !! sub = Some full → vex_sub_reg_map s !! full = None.

(** Register identifiers and offsets that fit an [unsigned int] and stay
    below its largest value. *)
Definition reg_ids_in_range `{!ExternConstants} : Prop :=
  Forall (λ c, 0 ≤ c < 2 ^ 32 - 1)
    [UC_X86_REG_RIP; UC_X86_REG_EIP; UC_ARM_REG_PC; UC_ARM64_REG_PC;
     UC_MIPS_REG_PC; UC_X86_REG_RSP; UC_X86_REG_ESP; UC_ARM_REG_SP;
     UC_ARM64_REG_SP; UC_MIPS_REG_SP; OFFSET_amd64_RIP; OFFSET_x86_EIP;
     OFFSET_arm_R15T; OFFSET_arm64_PC; OFFSET_mips64_PC; OFFSET_mips32_PC].

(** A sample state whose sub-register map chains two entries. *)
Definition chained_sub_reg_state : State :=
  {| mem_writes := [];
     block_symbolic_registers := ∅;
     block_concrete_registers := ∅;
     block_symbolic_temps := ∅;
     active_pages := ∅;
     arch := 4;
     mode := 8;
     vex_guest := 0;
     symbolic_registers := ∅;
     blacklisted_registers := ∅;
     vex_sub_reg_map := {[ 17 := 16; 16 := 8 ]};
     artificial_vex_registers := ∅ |}.

(** * Properties *)

(** ** Equality and hash of taint entities *)

(** Induction over entities, with the hypothesis for the sub-entities of a
    memory reference. *)
Fixpoint taint_entity_t_ind (P : taint_entity_t → Prop)
    (IH : ∀ t r tm subs ia, Forall P subs → P (Build_taint_entity t r tm subs ia))
    (e : taint_entity_t) : P e :=
  match e with
  | Build_taint_entity t r tm subs ia =>
      IH t r tm subs ia
         ((fix all (l : list taint_entity_t) : Forall P l :=
             match l with
             | [] => @List.Forall_nil _ P
             | x :: l' =>
                 @List.Forall_cons _ P x l' (taint_entity_t_ind P IH x) (all l')
             end) subs)
  end.

Lemma vector_eq_Forall2 {A : Type} (eqA : A → A → bool) (xs ys : list A) :
  vector_eq eqA xs ys = true ↔ Forall2 (λ x y, eqA x y = true) xs ys.
Proof.
  revert ys. induction xs as [|x xs IHxs]; intros [|y ys]; simpl.
  - split; [constructor | reflexivity].
  - split; [discriminate | inversion 1].
  - split; [discriminate | inversion 1].
  - rewrite andb_true_iff, IHxs. split.
    + intros [Hx Hxs]. by constructor.
    + inversion 1; subst. by split.
Qed.

Lemma vector_eq_refl {A : Type} (eqA : A → A → bool) (xs : list A) :
  Forall (λ x, eqA x x = true) xs → vector_eq eqA xs xs = true.
Proof.
  induction 1 as [|x xs Hx _ IHxs]; simpl; [reflexivity|].
  by rewrite Hx, IHxs.
Qed.

(** The source's [operator==] with the vector comparison named. *)
Lemma taint_entity_eq_unfold (a b : taint_entity_t) :
  taint_entity_eq a b =
    if negb (taint_entity_enum_eqb (entity_type a) (entity_type b)) then false
    else if taint_entity_enum_eqb (entity_type a) TAINT_ENTITY_REG then
      reg_offset a =? reg_offset b
    else if taint_entity_enum_eqb (entity_type a) TAINT_ENTITY_TMP then
      tmp_id a =? tmp_id b
    else vector_eq taint_entity_eq (mem_ref_entity_list a) (mem_ref_entity_list b).
Proof.
  destruct a as [ta ra tma la ia], b as [tb rb tmb lb ib]; simpl.
  destruct (negb _); [reflexivity|].
  do 2 (destruct (taint_entity_enum_eqb ta _); [reflexivity|]).
  revert lb. induction la as [|x la IHla]; intros [|y lb]; try reflexivity.
  by rewrite IHla.
Qed.

Lemma taint_entity_enum_eqb_eq (s t : taint_entity_enum_t) :
  taint_entity_enum_eqb s t = true ↔ s = t.
Proof. destruct s, t; unfold taint_entity_enum_eqb; simpl; split; congruence. Qed.

Lemma taint_entity_eq_compared (a b : taint_entity_t) :
  taint_entity_eq a b = true ↔ compared_members_eq a b.
Proof.
  rewrite taint_entity_eq_unfold. unfold compared_members_eq, entity_lists_eq.
  destruct (taint_entity_enum_eqb (entity_type a) (entity_type b)) eqn:Ht; simpl.
  - apply taint_entity_enum_eqb_eq in Ht. rewrite <- Ht.
    destruct (entity_type a); simpl;
      rewrite ?Z.eqb_eq, ?vector_eq_Forall2; tauto.
  - split; [discriminate|]. intros [Heq _].
    apply taint_entity_enum_eqb_eq in Heq. congruence.
Qed.

Lemma taint_entity_eq_refl (a : taint_entity_t) : taint_entity_eq a a = true.
Proof.
  induction a as [t r tm subs ia IHsubs] using taint_entity_t_ind.
  apply taint_entity_eq_compared. split; [reflexivity|]. simpl.
  assert (entity_lists_eq subs subs) as Hsubs.
  { unfold entity_lists_eq. induction IHsubs; by constructor. }
  by destruct t.
Qed.

Lemma entity_lists_eq_refl (xs : list taint_entity_t) : entity_lists_eq xs xs.
Proof. induction xs; constructor; auto using taint_entity_eq_refl. Qed.

Lemma taint_entity_eq_set_instr_addr (a b : taint_entity_t) (x y : Z) :
  taint_entity_eq (set_instr_addr x a) (set_instr_addr y b) = taint_entity_eq a b.
Proof. by rewrite !taint_entity_eq_unfold. Qed.

(** C1, amended: [operator==] of taint entities holds iff the two have the
    same [entity_type] and, for [Reg], equal [reg_offset]; for [Tmp], equal
    [tmp_id]; for [Mem] and for [None], element-wise [==]
    [mem_ref_entity_list]s.  [instr_addr] is never looked at. *)
Theorem taint_entity_eq_payload_only (a b : taint_entity_t) :
  (taint_entity_eq a b = true ↔ compared_members_eq a b)
  ∧ (∀ x y : Z,
       taint_entity_eq (set_instr_addr x a) (set_instr_addr y b)
       = taint_entity_eq a b)
  ∧ (∀ x : Z, taint_entity_eq a (set_instr_addr x a) = true).
Proof.
  split; [apply taint_entity_eq_compared|]. split.
  - intros x y. apply taint_entity_eq_set_instr_addr.
  - intros x. apply taint_entity_eq_compared. split; [reflexivity|].
    destruct (entity_type a); auto using entity_lists_eq_refl.
Qed.

(** C1 as stated fails on two [None] entities: they have the same variant
    and [None] has no payload, yet [operator==] compares their
    [mem_ref_entity_list]s and returns false. *)
Lemma taint_entity_eq_none_counterexample :
  variant_payload_eq (none_entity []) (none_entity [reg_entity 16 0])
  ∧ taint_entity_eq (none_entity []) (none_entity [reg_entity 16 0]) = false.
Proof. split; [by split | reflexivity]. Qed.

Section hash.
Context {hash64 : StdHash Z}.

(** The source's hash with the loop over the sub-entities named. *)
Lemma taint_entity_hash_unfold (e : taint_entity_t) :
  taint_entity_hash e =
    match entity_type e with
    | TAINT_ENTITY_REG => Z.lxor (std_hash 0) (std_hash (reg_offset e))
    | TAINT_ENTITY_TMP => Z.lxor (std_hash 1) (std_hash (tmp_id e))
    | TAINT_ENTITY_MEM =>
        foldl (λ h sub_entity, Z.lxor h (taint_entity_hash sub_entity))
              (std_hash 2) (mem_ref_entity_list e)
    | TAINT_ENTITY_NONE => std_hash 3
    end.
Proof.
  destruct e as [t r tm subs ia]; destruct t; simpl; try reflexivity.
  generalize (std_hash 2). induction subs as [|x subs IHsubs]; intros h.
  - reflexivity.
  - apply IHsubs.
Qed.

Lemma foldl_hash_ext (xs ys : list taint_entity_t) (h : Z) :
  Forall2 (λ x y, taint_entity_hash x = taint_entity_hash y) xs ys →
  foldl (λ h sub_entity, Z.lxor h (taint_entity_hash sub_entity)) h xs
  = foldl (λ h sub_entity, Z.lxor h (taint_entity_hash sub_entity)) h ys.
Proof.
  intros Hxy. revert h. induction Hxy as [|x y xs ys Hh _ IHxy]; intros h.
  - reflexivity.
  - simpl. rewrite Hh. apply IHxy.
Qed.

Lemma taint_entity_eq_hash (a : taint_entity_t) :
  ∀ b, taint_entity_eq a b = true → taint_entity_hash a = taint_entity_hash b.
Proof.
  induction a as [t r tm subs ia IHsubs] using taint_entity_t_ind.
  intros [tb rb tmb lb ib] [Ht Hpay]%taint_entity_eq_compared.
  simpl in Ht, Hpay. subst tb. rewrite !taint_entity_hash_unfold; simpl.
  destruct t; try congruence.
  apply foldl_hash_ext. clear -IHsubs Hpay.
  induction Hpay as [|x y xs ys Hxy _ IHpay]; [constructor|].
  inversion IHsubs; subst. constructor; auto.
Qed.

(** C3: entities that are [==] have the same hash; the hash does not
    depend on [instr_addr], and the hash of a [Mem] entity is the hash of
    its type combined by exclusive or with the hashes of its sub-entities
    and nothing else. *)
Theorem taint_entity_hash_respects_eq (a b : taint_entity_t) :
  taint_entity_eq a b = true →
  taint_entity_hash a = taint_entity_hash b
  ∧ (∀ x : Z, taint_entity_hash (set_instr_addr x a) = taint_entity_hash a)
  ∧ match entity_type a with
    | TAINT_ENTITY_MEM =>
        taint_entity_hash a =
          foldl (λ h sub_entity, Z.lxor h (taint_entity_hash sub_entity))
                (std_hash (taint_entity_enum_val TAINT_ENTITY_MEM))
                (mem_ref_entity_list a)
    | _ => True
    end.
Proof.
  intros Heq. split; [by apply taint_entity_eq_hash|]. split.
  - intros x. by rewrite !taint_entity_hash_unfold.
  - rewrite (taint_entity_hash_unfold a). by destruct (entity_type a).
Qed.
End hash.

Lemma taint_entity_hash_respects_eq_witness :
  taint_entity_hash (hash64 := identity_hash)
    (mem_entity [reg_entity 16 1; tmp_entity 3 1] 1)
  = taint_entity_hash (hash64 := identity_hash)
      (mem_entity [reg_entity 16 2; tmp_entity 3 9] 2).
Proof.
  exact (proj1 (taint_entity_hash_respects_eq (hash64 := identity_hash)
                  (mem_entity [reg_entity 16 1; tmp_entity 3 1] 1)
                  (mem_entity [reg_entity 16 2; tmp_entity 3 9] 2)
                  eq_refl)).
Defined.

(** ** Equality of instruction and block taint entries *)

Lemma unordered_set_eq_refl (a : list taint_entity_t) : unordered_set_eq a a = true.
Proof.
  unfold unordered_set_eq. rewrite Z.eqb_refl; simpl.
  apply forallb_forall. intros x Hx. apply existsb_exists.
  exists x. split; [assumption | apply taint_entity_eq_refl].
Qed.

Lemma taint_vector_eq_refl (v : taint_vector_t) : taint_vector_eq v v = true.
Proof.
  apply vector_eq_refl, Forall_forall. intros [sink srcs] _.
  unfold pair_eq; simpl.
  by rewrite taint_entity_eq_refl, unordered_set_eq_refl.
Qed.

Lemma instruction_taint_entry_eq_refl (e : instruction_taint_entry_t) :
  instruction_taint_entry_eq e e = true.
Proof.
  unfold instruction_taint_entry_eq.
  by rewrite taint_vector_eq_refl, unordered_set_eq_refl, !eqb_reflx.
Qed.

Lemma std_map_eq_refl {V : Type} (eqV : V → V → bool) (m : list (Z * V)) :
  (∀ v, eqV v v = true) → std_map_eq eqV m m = true.
Proof.
  intros HV. apply vector_eq_refl, Forall_forall. intros [k v] _.
  unfold pair_eq; simpl. by rewrite Z.eqb_refl, HV.
Qed.

(** C9: [operator==] of instruction taint entries does not look at
    [ite_cond_entity_list] and [modified_regs]: two entries that agree on
    [taint_sink_src_map], [dependencies_to_save], [has_memory_read] and
    [has_memory_write] are [==], whatever the other two members hold. *)
Theorem instruction_taint_entry_eq_ignores_ite_and_modified_regs
    (a b : instruction_taint_entry_t) :
  taint_sink_src_map a = taint_sink_src_map b →
  dependencies_to_save a = dependencies_to_save b →
  has_memory_read a = has_memory_read b →
  has_memory_write a = has_memory_write b →
  instruction_taint_entry_eq a b = true.
Proof.
  intros Hmap Hdeps Hrd Hwr. unfold instruction_taint_entry_eq.
  rewrite Hmap, Hdeps, Hrd, Hwr.
  by rewrite taint_vector_eq_refl, unordered_set_eq_refl, !eqb_reflx.
Qed.

Lemma instruction_taint_entry_eq_ignores_witness :
  ite_cond_entity_list (sample_instr_entry [] [])
    ≠ ite_cond_entity_list (sample_instr_entry [tmp_entity 2 0] [(16, true)])
  ∧ modified_regs (sample_instr_entry [] [])
    ≠ modified_regs (sample_instr_entry [tmp_entity 2 0] [(16, true)])
  ∧ instruction_taint_entry_eq
      (sample_instr_entry [] [])
      (sample_instr_entry [tmp_entity 2 0] [(16, true)]) = true.
Proof.
  split; [discriminate|]. split; [discriminate|].
  apply (instruction_taint_entry_eq_ignores_ite_and_modified_regs
           (sample_instr_entry [] [])
           (sample_instr_entry [tmp_entity 2 0] [(16, true)]));
    reflexivity.
Defined.

(** C2: [operator==] of block taint entries compares
    [block_instrs_taint_data_map] and [exit_stmt_guard_expr_deps] only: two
    entries that agree on these are [==], whatever [exit_stmt_instr_addr],
    [has_unsupported_stmt_or_expr_type] and [unsupported_stmt_stop_reason]
    hold. *)
Theorem block_taint_entry_eq_ignores_exit_addr_and_unsupported
    (a b : block_taint_entry_t) :
  block_instrs_taint_data_map a = block_instrs_taint_data_map b →
  exit_stmt_guard_expr_deps a = exit_stmt_guard_expr_deps b →
  block_taint_entry_eq a b = true.
Proof.
  intros Hmap Hdeps. unfold block_taint_entry_eq. rewrite Hmap, Hdeps.
  rewrite unordered_set_eq_refl, andb_true_r.
  apply std_map_eq_refl, instruction_taint_entry_eq_refl.
Qed.

Lemma block_taint_entry_eq_ignores_witness :
  exit_stmt_instr_addr (sample_block_entry 4100 false STOP_NORMAL)
    ≠ exit_stmt_instr_addr (sample_block_entry 4200 true STOP_UNSUPPORTED_STMT_CAS)
  ∧ block_taint_entry_eq
      (sample_block_entry 4100 false STOP_NORMAL)
      (sample_block_entry 4200 true STOP_UNSUPPORTED_STMT_CAS) = true.
Proof.
  split; [discriminate|].
  apply (block_taint_entry_eq_ignores_exit_addr_and_unsupported
           (sample_block_entry 4100 false STOP_NORMAL)
           (sample_block_entry 4200 true STOP_UNSUPPORTED_STMT_CAS));
    reflexivity.
Defined.

(** ** The ordered set of instruction details *)

Lemma instr_details_lt_spec (a b : instr_details_t) :
  instr_details_lt a b = true ↔ addr_lt a b.
Proof. apply Z.ltb_lt. Qed.

Lemma std_set_insert_elem (x z : instr_details_t) (s : list instr_details_t) :
  z ∈ std_set_insert instr_details_lt x s → z = x ∨ z ∈ s.
Proof.
  induction s as [|y s IHs]; simpl.
  - intros ->%list_elem_of_singleton. by left.
  - destruct (instr_details_lt x y).
    { intros [->|Hz]%elem_of_cons; [by left | by right]. }
    destruct (instr_details_lt y x); [|by right].
    intros [->|Hz]%elem_of_cons; [right; left|].
    destruct (IHs Hz) as [->|Hin]; [by left | right; by right].
Qed.

Lemma std_set_insert_sorted (x : instr_details_t) (s : list instr_details_t) :
  StronglySorted addr_lt s →
  StronglySorted addr_lt (std_set_insert instr_details_lt x s).
Proof.
  induction 1 as [|y s Hs IHs Hy]; simpl.
  - repeat constructor.
  - destruct (instr_details_lt x y) eqn:Hxy.
    + apply instr_details_lt_spec in Hxy.
      constructor; [by constructor|]. constructor; [assumption|].
      eapply Forall_impl; [exact Hy|]. unfold addr_lt in *. intros; simpl in *; lia.
    + destruct (instr_details_lt y x) eqn:Hyx; [|by constructor].
      apply instr_details_lt_spec in Hyx. constructor; [assumption|].
      apply Forall_forall. intros z [->|Hz]%std_set_insert_elem; [assumption|].
      by eapply Forall_forall in Hy.
Qed.

Lemma std_set_of_sorted (xs : list instr_details_t) :
  StronglySorted addr_lt (std_set_of instr_details_lt xs).
Proof.
  unfold std_set_of.
  assert (∀ s, StronglySorted addr_lt s →
            StronglySorted addr_lt
              (fold_left (λ s x, std_set_insert instr_details_lt x s) xs s)) as H.
  { induction xs as [|x xs IHxs]; intros s Hs; simpl; [assumption|].
    by apply IHxs, std_set_insert_sorted. }
  apply H. constructor.
Qed.

Lemma sorted_addr_NoDup (s : list instr_details_t) :
  StronglySorted addr_lt s → NoDup (id_instr_addr <$> s).
Proof.
  induction 1 as [|y s Hs IHs Hy]; simpl; constructor; [|assumption].
  intros (z & Hz & Hin)%list_elem_of_fmap.
  eapply Forall_forall in Hy; [|exact Hin]. unfold addr_lt in Hy. lia.
Qed.

Lemma sorted_addr_inj (s : list instr_details_t) (x y : instr_details_t) :
  StronglySorted addr_lt s →
  x ∈ s → y ∈ s → id_instr_addr x = id_instr_addr y → x = y.
Proof.
  induction 1 as [|z s Hs IHs Hz]; [by intros ?%elem_of_nil|].
  rewrite Forall_forall in Hz. unfold addr_lt in Hz.
  intros [->|Hx]%elem_of_cons [->|Hy]%elem_of_cons Haddr; auto.
  - specialize (Hz _ Hy). lia.
  - specialize (Hz _ Hx). lia.
Qed.

Lemma std_set_insert_present (x' : instr_details_t) (s : list instr_details_t) :
  StronglySorted addr_lt s →
  id_instr_addr x' ∈ id_instr_addr <$> s →
  std_set_insert instr_details_lt x' s = s.
Proof.
  induction 1 as [|y s Hs IHs Hy]; [by intros ?%elem_of_nil|].
  rewrite Forall_forall in Hy. unfold addr_lt in Hy.
  intros (x & Hxx & Hx)%list_elem_of_fmap. simpl.
  destruct (instr_details_lt x' y) eqn:Hlt.
  { apply instr_details_lt_spec in Hlt. unfold addr_lt in Hlt.
    apply elem_of_cons in Hx as [->|Hx]; [lia|]. specialize (Hy _ Hx). lia. }
  destruct (instr_details_lt y x') eqn:Hgt; [|reflexivity].
  apply instr_details_lt_spec in Hgt. unfold addr_lt in Hgt.
  apply elem_of_cons in Hx as [->|Hx]; [lia|].
  rewrite IHs; [reflexivity|]. apply list_elem_of_fmap. by exists x.
Qed.

(** C10: the order of instruction details is the order of their addresses,
    so a [std::set<instr_details_t>] holds at most one entry per address:
    in a set built by insertions no address occurs twice, two entries with
    the same address are the same entry, and inserting details whose
    address is present leaves the set as it is, whatever their
    [has_memory_dep] and [memory_value]. *)
Theorem instr_details_set_one_entry_per_address (xs : list instr_details_t) :
  (∀ a b : instr_details_t,
     instr_details_lt a b = true ↔ id_instr_addr a < id_instr_addr b)
  ∧ NoDup (id_instr_addr <$> std_set_of instr_details_lt xs)
  ∧ (∀ x y : instr_details_t,
       x ∈ std_set_of instr_details_lt xs →
       y ∈ std_set_of instr_details_lt xs →
       id_instr_addr x = id_instr_addr y → x = y)
  ∧ (∀ (addr : Z) (dep : bool) (mv : memory_value_t),
       addr ∈ id_instr_addr <$> std_set_of instr_details_lt xs →
       std_set_insert instr_details_lt (Build_instr_details addr dep mv)
         (std_set_of instr_details_lt xs)
       = std_set_of instr_details_lt xs).
Proof.
  pose proof (std_set_of_sorted xs) as Hs.
  split; [apply instr_details_lt_spec|].
  split; [by apply sorted_addr_NoDup|].
  split; [intros x y; by apply sorted_addr_inj|].
  intros addr dep mv Hin. by apply std_set_insert_present.
Qed.

Lemma instr_details_set_one_entry_per_address_witness :
  std_set_insert instr_details_lt
    (Build_instr_details 4096 true (Build_memory_value 32768 [1; 2] 2))
    (std_set_of instr_details_lt
       [Build_instr_details 4100 false (Build_memory_value 0 [] 0);
        Build_instr_details 4096 false (Build_memory_value 0 [] 0)])
  = std_set_of instr_details_lt
      [Build_instr_details 4100 false (Build_memory_value 0 [] 0);
       Build_instr_details 4096 false (Build_memory_value 0 [] 0)].
Proof.
  apply (instr_details_set_one_entry_per_address
           [Build_instr_details 4100 false (Build_memory_value 0 [] 0);
            Build_instr_details 4096 false (Build_memory_value 0 [] 0)]).
  cbv. apply list_elem_of_here.
Defined.

(** ** Register predicates and lookups of [State] *)

Lemma unordered_set_count_zero (x : Z) (s : gset Z) :
  (unordered_set_count x s =? 0) = true ↔ x ∉ s.
Proof. unfold unordered_set_count. by destruct (decide (x ∈ s)). Qed.

(** C8: a register is a valid dependency iff it is neither artificial nor
    blacklisted; so an artificial register and a blacklisted register are
    never valid dependencies. *)
Theorem is_valid_dependency_register_iff (s : State) (reg_offset : Z) :
  (is_valid_dependency_register s reg_offset = true
   ↔ (reg_offset ∉ artificial_vex_registers s)
     ∧ (reg_offset ∉ blacklisted_registers s))
  ∧ (reg_offset ∈ artificial_vex_registers s →
     is_valid_dependency_register s reg_offset = false)
  ∧ (reg_offset ∈ blacklisted_registers s →
     is_valid_dependency_register s reg_offset = false).
Proof.
  assert (is_valid_dependency_register s reg_offset = true
          ↔ (reg_offset ∉ artificial_vex_registers s)
            ∧ (reg_offset ∉ blacklisted_registers s)) as Hiff.
  { unfold is_valid_dependency_register.
    by rewrite andb_true_iff, !unordered_set_count_zero. }
  split; [exact Hiff|].
  split; intros Hin; apply not_true_is_false; rewrite Hiff; tauto.
Qed.

Lemma is_valid_dependency_register_iff_witness :
  is_valid_dependency_register (sample_state 4 8) 1000 = false
  ∧ is_valid_dependency_register (sample_state 4 8) 184 = false
  ∧ is_valid_dependency_register (sample_state 4 8) 16 = true.
Proof.
  split; [|split].
  - apply (proj1 (proj2 (is_valid_dependency_register_iff (sample_state 4 8) 1000))).
    simpl. by apply elem_of_singleton.
  - apply (proj2 (proj2 (is_valid_dependency_register_iff (sample_state 4 8) 184))).
    simpl. by apply elem_of_singleton.
  - apply (proj1 (is_valid_dependency_register_iff (sample_state 4 8) 16)).
    simpl. by rewrite !elem_of_singleton.
Defined.

Section arch_lookups.
Context `{!ExternConstants}.

Lemma uc_arch_labels_ne :
  UC_ARCH_X86 ≠ UC_ARCH_ARM ∧ UC_ARCH_X86 ≠ UC_ARCH_ARM64
  ∧ UC_ARCH_X86 ≠ UC_ARCH_MIPS ∧ UC_ARCH_ARM ≠ UC_ARCH_ARM64
  ∧ UC_ARCH_ARM ≠ UC_ARCH_MIPS ∧ UC_ARCH_ARM64 ≠ UC_ARCH_MIPS.
Proof.
  pose proof uc_arch_labels_distinct as Hnd.
  rewrite !NoDup_cons, !not_elem_of_cons in Hnd. tauto.
Qed.

(** C7: for an architecture outside x86, ARM, ARM64 and MIPS both
    program-counter lookups return the sentinel, [-1] as an
    [unsigned int]; for each of the four they return the program counter
    of the architecture, chosen by the 64-bit mode for x86 and, in the
    VEX lookup, for MIPS. *)
Theorem arch_pc_lookups (s : State) :
  (¬ supported_arch (arch s) →
     arch_pc_reg_vex_offset s = NO_SUCH_REGISTER
     ∧ arch_pc_reg s = NO_SUCH_REGISTER)
  ∧ (arch s = UC_ARCH_X86 →
       arch_pc_reg_vex_offset s =
         uint32 (if mode s =? UC_MODE_64 then OFFSET_amd64_RIP else OFFSET_x86_EIP)
       ∧ arch_pc_reg s =
           uint32 (if mode s =? UC_MODE_64 then UC_X86_REG_RIP else UC_X86_REG_EIP))
  ∧ (arch s = UC_ARCH_ARM →
       arch_pc_reg_vex_offset s = uint32 OFFSET_arm_R15T
       ∧ arch_pc_reg s = uint32 UC_ARM_REG_PC)
  ∧ (arch s = UC_ARCH_ARM64 →
       arch_pc_reg_vex_offset s = uint32 OFFSET_arm64_PC
       ∧ arch_pc_reg s = uint32 UC_ARM64_REG_PC)
  ∧ (arch s = UC_ARCH_MIPS →
       arch_pc_reg_vex_offset s =
         uint32 (if mode s =? UC_MODE_64 then OFFSET_mips64_PC else OFFSET_mips32_PC)
       ∧ arch_pc_reg s = uint32 UC_MIPS_REG_PC)
  ∧ NO_SUCH_REGISTER = 4294967295.
Proof.
  destruct uc_arch_labels_ne as (Hxa & Hxa64 & Hxm & Haa64 & Ham & Ha64m).
  unfold arch_pc_reg_vex_offset, arch_pc_reg, supported_arch.
  split; [|repeat apply conj; [intros Harch ..|reflexivity]].
  - rewrite !elem_of_cons, elem_of_nil. intros Harch.
    destruct (Z.eqb_spec (arch s) UC_ARCH_X86); [tauto|].
    destruct (Z.eqb_spec (arch s) UC_ARCH_ARM); [tauto|].
    destruct (Z.eqb_spec (arch s) UC_ARCH_ARM64); [tauto|].
    destruct (Z.eqb_spec (arch s) UC_ARCH_MIPS); [tauto|]. by split.
  - rewrite Harch, Z.eqb_refl. by split.
  - rewrite Harch, Z.eqb_refl.
    destruct (Z.eqb_spec UC_ARCH_ARM UC_ARCH_X86); [congruence|]. by split.
  - rewrite Harch, Z.eqb_refl.
    destruct (Z.eqb_spec UC_ARCH_ARM64 UC_ARCH_X86); [congruence|].
    destruct (Z.eqb_spec UC_ARCH_ARM64 UC_ARCH_ARM); [congruence|]. by split.
  - rewrite Harch, Z.eqb_refl.
    destruct (Z.eqb_spec UC_ARCH_MIPS UC_ARCH_X86); [congruence|].
    destruct (Z.eqb_spec UC_ARCH_MIPS UC_ARCH_ARM); [congruence|].
    destruct (Z.eqb_spec UC_ARCH_MIPS UC_ARCH_ARM64); [congruence|]. by split.
Qed.
End arch_lookups.

Lemma arch_pc_lookups_witness :
  arch_pc_reg_vex_offset (sample_state 5 4) = 4294967295
  ∧ arch_pc_reg (sample_state 5 4) = 4294967295
  ∧ arch_pc_reg_vex_offset (sample_state 4 8) = 184
  ∧ arch_pc_reg (sample_state 4 8) = 41.
Proof.
  split; [|split].
  - apply (proj1 (arch_pc_lookups (sample_state 5 4))).
    unfold supported_arch. simpl. rewrite !elem_of_cons, elem_of_nil. lia.
  - apply (proj1 (arch_pc_lookups (sample_state 5 4))).
    unfold supported_arch. simpl. rewrite !elem_of_cons, elem_of_nil. lia.
  - exact (proj1 (proj2 (arch_pc_lookups (sample_state 4 8))) eq_refl).
Defined.

(** ** Shadow pages *)

Lemma page_index_div (addr : Z) : page_index addr = addr / PAGE_SIZE.
Proof. unfold page_index. by rewrite Z.shiftr_div_pow2. Qed.

Lemma page_offset_mod (addr : Z) : page_offset addr = addr mod PAGE_SIZE.
Proof.
  unfold page_offset. change (PAGE_SIZE - 1) with (Z.ones 12).
  by rewrite Z.land_ones.
Qed.

Lemma page_offset_range (addr : Z) : 0 ≤ page_offset addr < PAGE_SIZE.
Proof. rewrite page_offset_mod. by apply Z.mod_pos_bound. Qed.

Lemma page_index_offset (addr : Z) :
  addr = PAGE_SIZE * page_index addr + page_offset addr.
Proof. rewrite page_index_div, page_offset_mod. by apply Z.div_mod. Qed.

Lemma new_page_wf : page_wf new_page.
Proof. unfold page_wf, new_page. by rewrite length_replicate. Qed.

(** C5: shadow memory is kept in pages of exactly 4096 taint bytes
    ([PAGE_SIZE] is 0x1000, [PAGE_SHIFT] is 12, a [PageBitmap] has
    [PAGE_SIZE] entries), and the page of a byte is its address shifted
    right by 12 bits, the low 12 bits being its index in the page. *)
Theorem shadow_memory_page_granular :
  PAGE_SIZE = 4096 ∧ PAGE_SHIFT = 12 ∧ PAGE_SIZE = 2 ^ PAGE_SHIFT
  ∧ Z.of_nat (length new_page) = 4096
  ∧ (∀ (s : State) (addr : Z),
       page_lookup s addr = active_pages s !! Z.shiftr addr 12)
  ∧ (∀ addr : Z,
       page_index addr = Z.shiftr addr 12
       ∧ page_index addr = addr / 4096
       ∧ 0 ≤ page_offset addr < 4096
       ∧ addr = 4096 * page_index addr + page_offset addr).
Proof.
  do 3 (split; [reflexivity|]).
  split; [apply new_page_wf|].
  split; [reflexivity|].
  intros addr. split; [reflexivity|].
  split; [apply page_index_div|].
  split; [apply page_offset_range | apply page_index_offset].
Qed.

(** ** The block-size limit *)

(** C6: [MAX_BB_SIZE] is 800; a block is refused, the engine re-entering
    at the next instruction, exactly when it is longer than 800 bytes. *)
Theorem max_bb_size_is_800 :
  MAX_BB_SIZE = 800
  ∧ (∀ block_size : Z,
       check_block_size block_size = BLOCK_REFUSED_REENTER_AT_NEXT_INSTR
       ↔ 800 < block_size)
  ∧ (∀ block_size : Z,
       check_block_size block_size = BLOCK_ANALYZED ↔ block_size ≤ 800).
Proof.
  split; [reflexivity|].
  split; intros block_size; unfold check_block_size, MAX_BB_SIZE;
    destruct (Z.ltb_spec 800 block_size); split; (congruence || lia).
Qed.

(** ** The write journal: commit and rollback *)

Lemma active_pages_set_taint (addr : Z) (t : taint_t) (s : State) :
  active_pages (set_taint addr t s) =
    <[page_index addr :=
        <[Z.to_nat (page_offset addr) := t]>
          (default new_page (active_pages s !! page_index addr))]>
      (active_pages s).
Proof.
  unfold set_taint, page_activate, page_lookup.
  destruct (active_pages s !! page_index addr) as [page|] eqn:Hpage; simpl.
  - by rewrite Hpage.
  - by rewrite lookup_insert_eq, insert_insert_eq.
Qed.

(** Writing a taint byte touches the shadow pages and nothing else. *)
Lemma set_taint_frame (addr : Z) (t : taint_t) (s : State) :
  set_taint addr t s = set_active_pages (active_pages (set_taint addr t s)) s.
Proof.
  unfold set_taint, page_activate, page_lookup.
  destruct (active_pages s !! page_index addr) as [page|] eqn:Hpage; simpl.
  - by rewrite Hpage.
  - by rewrite lookup_insert_eq.
Qed.

Lemma foldl_set_taint_frame {A : Type} (f : A → Z * taint_t) (l : list A) (s : State) :
  ∃ pages, foldl (λ st x, set_taint (f x).1 (f x).2 st) s l = set_active_pages pages s.
Proof.
  revert s. induction l as [|x l IHl]; intros s; simpl.
  - exists (active_pages s). by destruct s.
  - destruct (IHl (set_taint (f x).1 (f x).2 s)) as [pages ->].
    exists pages. by rewrite set_taint_frame.
Qed.

Lemma pages_wf_set_taint (addr : Z) (t : taint_t) (s : State) :
  pages_wf s → pages_wf (set_taint addr t s).
Proof.
  unfold pages_wf. intros Hwf. rewrite active_pages_set_taint.
  apply map_Forall_insert_2; [|assumption].
  unfold page_wf. rewrite length_insert.
  destruct (active_pages s !! page_index addr) as [page|] eqn:Hpage; simpl.
  - by apply (Hwf _ _ Hpage).
  - apply new_page_wf.
Qed.

Lemma taint_at_set_taint (addr b : Z) (t : taint_t) (s : State) :
  pages_wf s →
  taint_at (set_taint addr t s) b = if decide (addr = b) then t else taint_at s b.
Proof.
  intros Hwf. unfold taint_at, page_lookup. rewrite active_pages_set_taint.
  pose proof (page_offset_range addr) as Hra.
  pose proof (page_offset_range b) as Hrb.
  assert (page_wf (default new_page (active_pages s !! page_index addr))) as Hlen.
  { destruct (active_pages s !! page_index addr) as [page|] eqn:Hpage; simpl.
    - by apply (Hwf _ _ Hpage).
    - apply new_page_wf. }
  unfold page_wf in Hlen.
  destruct (decide (page_index addr = page_index b)) as [Hidx|Hidx].
  - rewrite Hidx, lookup_insert_eq. rewrite <- Hidx.
    destruct (decide (page_offset addr = page_offset b)) as [Hoff|Hoff].
    + rewrite decide_True
        by (rewrite (page_index_offset addr), (page_index_offset b); congruence).
      rewrite <- Hoff, list_lookup_insert_eq by lia. reflexivity.
    + rewrite decide_False by congruence.
      rewrite list_lookup_insert_ne by lia.
      destruct (active_pages s !! page_index addr) as [page|]; simpl; [reflexivity|].
      unfold new_page. rewrite lookup_replicate_2 by (unfold PAGE_SIZE in *; lia).
      reflexivity.
  - rewrite lookup_insert_ne by assumption.
    rewrite decide_False by congruence. reflexivity.
Qed.

(** Writing the taint [f a] to every address [a] of a list. *)
Lemma taint_at_foldl_set_taint (f : Z → taint_t) (addrs : list Z) (s : State) :
  pages_wf s →
  pages_wf (foldl (λ st a, set_taint a (f a) st) s addrs)
  ∧ ∀ b, taint_at (foldl (λ st a, set_taint a (f a) st) s addrs) b
         = if decide (b ∈ addrs) then f b else taint_at s b.
Proof.
  revert s. induction addrs as [|a addrs IHaddrs]; intros s Hwf.
  - split; [assumption|]. intros b.
    destruct (decide (b ∈ [])) as [Hin|_]; [|reflexivity].
    by apply elem_of_nil in Hin.
  - change (foldl (λ st a, set_taint a (f a) st) s (a :: addrs))
      with (foldl (λ st a, set_taint a (f a) st) (set_taint a (f a) s) addrs).
    destruct (IHaddrs (set_taint a (f a) s)) as [Hwf' Hat];
      [by apply pages_wf_set_taint|].
    split; [assumption|]. intros b. rewrite Hat.
    rewrite taint_at_set_taint by assumption.
    destruct (decide (b ∈ addrs)) as [Hin|Hin];
      destruct (decide (b ∈ a :: addrs)) as [Hin'|Hin'];
      destruct (decide (a = b)) as [Hab|Hab]; try reflexivity.
    + exfalso. apply Hin'. by right.
    + exfalso. apply Hin'. by right.
    + by subst.
    + apply elem_of_cons in Hin' as [?|?]; congruence.
    + exfalso. apply Hin'. subst. by left.
Qed.

(** Writing the same taints to two shadow memories that agree. *)
Lemma shadow_eq_foldl_set_taint (l : list (Z * taint_t)) (s1 s2 : State) :
  pages_wf s1 → pages_wf s2 → shadow_eq s1 s2 →
  pages_wf (foldl (λ st at_, set_taint at_.1 at_.2 st) s1 l)
  ∧ pages_wf (foldl (λ st at_, set_taint at_.1 at_.2 st) s2 l)
  ∧ shadow_eq (foldl (λ st at_, set_taint at_.1 at_.2 st) s1 l)
              (foldl (λ st at_, set_taint at_.1 at_.2 st) s2 l).
Proof.
  revert s1 s2. induction l as [|[a t] l IHl]; intros s1 s2 Hwf1 Hwf2 Heq; simpl.
  - auto.
  - apply IHl; try by apply pages_wf_set_taint.
    intros b. rewrite !taint_at_set_taint by assumption.
    destruct (decide (a = b)); [reflexivity | apply Heq].
Qed.

Lemma shadow_eq_restore_write (w : mem_access_t) (s1 s2 : State) :
  pages_wf s1 → pages_wf s2 → shadow_eq s1 s2 →
  pages_wf (restore_write w s1) ∧ pages_wf (restore_write w s2)
  ∧ shadow_eq (restore_write w s1) (restore_write w s2).
Proof. apply shadow_eq_foldl_set_taint. Qed.

Lemma shadow_eq_undo_writes (ws : list mem_access_t) (s1 s2 : State) :
  pages_wf s1 → pages_wf s2 → shadow_eq s1 s2 →
  shadow_eq (undo_writes ws s1) (undo_writes ws s2).
Proof.
  unfold undo_writes. generalize (reverse ws) as l. intros l.
  revert s1 s2. induction l as [|w l IHl]; intros s1 s2 Hwf1 Hwf2 Heq; simpl.
  - assumption.
  - destruct (shadow_eq_restore_write w s1 s2) as (? & ? & ?); auto.
Qed.

Lemma restore_write_frame (w : mem_access_t) (s : State) :
  ∃ pages, restore_write w s = set_active_pages pages s.
Proof. apply (foldl_set_taint_frame (λ at_, at_)). Qed.

Lemma undo_writes_frame (ws : list mem_access_t) (s : State) :
  ∃ pages, undo_writes ws s = set_active_pages pages s.
Proof.
  unfold undo_writes. generalize (reverse ws) as l. intros l.
  revert s. induction l as [|w l IHl]; intros s; simpl.
  - exists (active_pages s). by destruct s.
  - destruct (restore_write_frame w s) as [pages ->].
    destruct (IHl (set_active_pages pages s)) as [pages' ->]. by exists pages'.
Qed.

Lemma zip_with_snapshot {A B : Type} (g : A → B) (l : list A) :
  zip l (g <$> l) = (λ a, (a, g a)) <$> l.
Proof. induction l as [|a l IHl]; [reflexivity|]. cbn. f_equal. exact IHl. Qed.

(** Undoing a write that saved the prior taint gives back the shadow memory
    from before the write. *)
Lemma restore_log_write (addr sz : Z) (sym : bool) (s : State) :
  pages_wf s →
  let s' := log_write addr sz (prior_taint s addr sz) sym s in
  let w := {| address := addr; size := sz; clean := prior_taint s addr sz;
              is_symbolic := sym |} in
  pages_wf s' ∧ pages_wf (restore_write w s') ∧ shadow_eq (restore_write w s') s.
Proof.
  intros Hwf s' w.
  set (mark := if sym then TAINT_SYMBOLIC else TAINT_DIRTY).
  destruct (taint_at_foldl_set_taint (λ _, mark) (access_range addr sz) s Hwf)
    as [Hwf_marked Hmarked].
  assert (pages_wf s') as Hwf' by exact Hwf_marked.
  assert (∀ b, taint_at s' b
               = if decide (b ∈ access_range addr sz) then mark else taint_at s b)
    as Hs' by exact Hmarked.
  assert (restore_write w s'
          = foldl (λ st a, set_taint a (taint_at s a) st) s' (access_range addr sz))
    as Hrestore.
  { unfold restore_write, w, prior_taint; simpl.
    by rewrite zip_with_snapshot, foldl_fmap. }
  destruct (taint_at_foldl_set_taint (taint_at s) (access_range addr sz) s' Hwf')
    as [Hwf_restored Hrestored].
  rewrite Hrestore. split; [assumption|]. split; [assumption|].
  intros b. rewrite Hrestored, Hs'.
  by destruct (decide (b ∈ access_range addr sz)).
Qed.

Lemma block_step_invariant (s0 s s' : State) :
  block_invariant s0 s → block_step s s' → block_invariant s0 s'.
Proof.
  intros (Hwf & Hsym & Hundo) Hstep.
  destruct Hstep as [s addr sz sym|s r|s r|s t].
  - destruct (restore_log_write addr sz sym s Hwf) as (Hwf' & Hwf_r & Hr).
    split; [assumption|]. split.
    + rewrite <- Hsym. unfold log_write.
      destruct (foldl_set_taint_frame
                  (λ a, (a, if sym then TAINT_SYMBOLIC else TAINT_DIRTY))
                  (access_range addr sz) s) as [pages Hpages].
      simpl in Hpages. by rewrite Hpages.
    + intros b. rewrite <- (Hundo b).
      change (mem_writes (log_write addr sz (prior_taint s addr sz) sym s))
        with (mem_writes s
              ++ [ {| address := addr; size := sz;
                      clean := prior_taint s addr sz; is_symbolic := sym |} ]).
      unfold undo_writes at 1. rewrite reverse_snoc. simpl.
      by apply (shadow_eq_undo_writes (mem_writes s)).
  - split; [exact Hwf|]. split; [exact Hsym|].
    intros b. rewrite <- (Hundo b).
    by apply (shadow_eq_undo_writes (mem_writes s)).
  - split; [exact Hwf|]. split; [exact Hsym|].
    intros b. rewrite <- (Hundo b).
    by apply (shadow_eq_undo_writes (mem_writes s)).
  - split; [exact Hwf|]. split; [exact Hsym|].
    intros b. rewrite <- (Hundo b).
    by apply (shadow_eq_undo_writes (mem_writes s)).
Qed.

Lemma block_run_invariant (s0 s : State) :
  pages_wf s0 → block_entry s0 → rtc block_step s0 s → block_invariant s0 s.
Proof.
  intros Hwf (Hjournal & _) Hrun. revert s Hrun.
  apply rtc_ind_r.
  - split; [assumption|]. split; [reflexivity|]. by rewrite Hjournal.
  - intros s s' _ Hstep IH. by eapply block_step_invariant.
Qed.

(** C4: when a block entered in [s0] has run to [s], [rollback] gives back
    the taint of every byte of shadow memory, the symbolic-register set
    and the sets of the block (symbolic and concrete registers, symbolic
    temps) as they were in [s0], and leaves no journal; after [commit] the
    journal [mem_writes] is empty. *)
Theorem rollback_restores_block_entry (s0 s : State) :
  pages_wf s0 → block_entry s0 → rtc block_step s0 s →
  (∀ addr : Z, taint_at (rollback s) addr = taint_at s0 addr)
  ∧ symbolic_registers (rollback s) = symbolic_registers s0
  ∧ block_symbolic_registers (rollback s) = block_symbolic_registers s0
  ∧ block_concrete_registers (rollback s) = block_concrete_registers s0
  ∧ block_symbolic_temps (rollback s) = block_symbolic_temps s0
  ∧ mem_writes (rollback s) = mem_writes s0
  ∧ mem_writes (commit s) = [].
Proof.
  intros Hwf Hentry Hrun.
  destruct (block_run_invariant s0 s Hwf Hentry Hrun) as (_ & Hsym & Hundo).
  destruct Hentry as (Hjournal & Hbs & Hbc & Hbt).
  split; [exact Hundo|]. split.
  { rewrite <- Hsym. unfold rollback. simpl.
    by destruct (undo_writes_frame (mem_writes s) s) as [pages ->]. }
  by rewrite Hbs, Hbc, Hbt, Hjournal.
Qed.

Lemma sample_state_pages_wf (a m : Z) : pages_wf (sample_state a m).
Proof.
  apply map_Forall_singleton. unfold page_wf.
  rewrite length_insert. apply new_page_wf.
Qed.

Lemma sample_state_block_entry (a m : Z) : block_entry (sample_state a m).
Proof. by repeat split. Qed.

Lemma sample_block_run : rtc block_step (sample_state 4 8) sample_state_6.
Proof.
  apply (rtc_l _ _ sample_state_1);
    [exact (step_log_write (sample_state 4 8) 0x8000 8 false)|].
  apply (rtc_l _ _ sample_state_2);
    [exact (step_log_write sample_state_1 0x8ffe 4 true)|].
  apply (rtc_l _ _ sample_state_3);
    [exact (step_log_write sample_state_2 0x8004 2 false)|].
  apply (rtc_l _ _ sample_state_4);
    [exact (step_mark_register_concrete sample_state_3 17)|].
  apply (rtc_l _ _ sample_state_5);
    [exact (step_mark_register_symbolic sample_state_4 24)|].
  apply rtc_once. exact (step_mark_temp_symbolic sample_state_5 5).
Qed.

(** The sample block overwrites the symbolic byte at 0x8003, taints bytes
    on both sides of a page boundary and marks registers and a temp. *)
Example sample_block_taints :
  taint_at (sample_state 4 8) 0x8003 = TAINT_SYMBOLIC
  ∧ taint_at sample_state_6 0x8003 = TAINT_DIRTY
  ∧ taint_at sample_state_6 0x8fff = TAINT_SYMBOLIC
  ∧ taint_at sample_state_6 0x9001 = TAINT_SYMBOLIC
  ∧ taint_at sample_state_6 0x9002 = TAINT_NONE
  ∧ length (mem_writes sample_state_6) = 3%nat
  ∧ block_concrete_registers sample_state_6 = {[ 16 ]}
  ∧ block_symbolic_registers sample_state_6 = {[ 24 ]}
  ∧ block_symbolic_temps sample_state_6 = {[ 5 ]}.
Proof. vm_compute. by repeat split. Qed.

Example sample_block_rolled_back :
  taint_at (rollback sample_state_6) 0x8003 = TAINT_SYMBOLIC
  ∧ taint_at (rollback sample_state_6) 0x8004 = TAINT_NONE
  ∧ taint_at (rollback sample_state_6) 0x8fff = TAINT_NONE
  ∧ taint_at (rollback sample_state_6) 0x9001 = TAINT_NONE
  ∧ taint_at (commit sample_state_6) 0x8003 = TAINT_NONE
  ∧ taint_at (commit sample_state_6) 0x9001 = TAINT_SYMBOLIC.
Proof. vm_compute. by repeat split. Qed.

Lemma rollback_restores_block_entry_witness :
  (∀ addr : Z,
     taint_at (rollback sample_state_6) addr = taint_at (sample_state 4 8) addr)
  ∧ symbolic_registers (rollback sample_state_6)
    = symbolic_registers (sample_state 4 8)
  ∧ block_symbolic_registers (rollback sample_state_6)
    = block_symbolic_registers (sample_state 4 8)
  ∧ block_concrete_registers (rollback sample_state_6)
    = block_concrete_registers (sample_state 4 8)
  ∧ block_symbolic_temps (rollback sample_state_6)
    = block_symbolic_temps (sample_state 4 8)
  ∧ mem_writes (rollback sample_state_6) = mem_writes (sample_state 4 8)
  ∧ mem_writes (commit sample_state_6) = [].
Proof.
  apply (rollback_restores_block_entry (sample_state 4 8) sample_state_6).
  - apply sample_state_pages_wf.
  - apply sample_state_block_entry.
  - apply sample_block_run.
Defined.


(** * Further properties of the embedded code *)

(** ** Equality of taint entities is an equivalence *)

Lemma taint_entity_eq_sym_imp (a : taint_entity_t) :
  ∀ b, taint_entity_eq a b = true → taint_entity_eq b a = true.
Proof.
  induction a as [t r tm subs ia IHsubs] using taint_entity_t_ind.
  intros [tb rb tmb lb ib] [Ht Hpay]%taint_entity_eq_compared.
  simpl in Ht, Hpay. subst tb.
  apply taint_entity_eq_compared. split; [reflexivity|]. simpl.
  assert (entity_lists_eq subs lb → entity_lists_eq lb subs) as Hflip.
  { clear Hpay. unfold entity_lists_eq. intros Hl.
    induction Hl as [|x y xs ys Hxy _ IHl]; [constructor|].
    inversion IHsubs; subst. constructor; auto. }
  destruct t; auto.
Qed.

Lemma taint_entity_eq_sym (a b : taint_entity_t) :
  taint_entity_eq a b = taint_entity_eq b a.
Proof.
  apply eq_true_iff_eq. split; apply taint_entity_eq_sym_imp.
Qed.

Lemma taint_entity_eq_trans (a : taint_entity_t) :
  ∀ b c, taint_entity_eq a b = true → taint_entity_eq b c = true →
         taint_entity_eq a c = true.
Proof.
  induction a as [t r tm subs ia IHsubs] using taint_entity_t_ind.
  intros [tb rb tmb lb ib] [tc rc tmc lc ic]
         [Ht Hab]%taint_entity_eq_compared [Ht' Hbc]%taint_entity_eq_compared.
  simpl in Ht, Hab, Ht', Hbc. subst tb tc.
  apply taint_entity_eq_compared. split; [reflexivity|]. simpl.
  assert (entity_lists_eq subs lb → entity_lists_eq lb lc →
          entity_lists_eq subs lc) as Htrans.
  { clear Hab Hbc. unfold entity_lists_eq. intros Hl. revert lc.
    induction Hl as [|x y xs ys Hxy _ IHl]; intros lc Hl'.
    - inversion Hl'. constructor.
    - inversion Hl'; subst. inversion IHsubs; subst. constructor; eauto. }
  destruct t; eauto; congruence.
Qed.

(** X1: [operator==] of taint entities is an equivalence relation:
    reflexive, symmetric and transitive. *)
Theorem taint_entity_eq_equivalence :
  (∀ a, taint_entity_eq a a = true)
  ∧ (∀ a b, taint_entity_eq a b = taint_entity_eq b a)
  ∧ (∀ a b c, taint_entity_eq a b = true → taint_entity_eq b c = true →
              taint_entity_eq a c = true).
Proof.
  split; [apply taint_entity_eq_refl|].
  split; [apply taint_entity_eq_sym|].
  intros a b c. apply taint_entity_eq_trans.
Qed.

Lemma taint_entity_eq_equivalence_witness :
  taint_entity_eq (mem_entity [reg_entity 16 1] 1) (mem_entity [reg_entity 16 3] 3)
  = true.
Proof.
  apply (proj2 (proj2 taint_entity_eq_equivalence)
           (mem_entity [reg_entity 16 1] 1)
           (mem_entity [reg_entity 16 2] 2)
           (mem_entity [reg_entity 16 3] 3)); reflexivity.
Defined.

(** ** The hash of memory references *)

Section hash_of_mem.
Context {hash64 : StdHash Z}.

Lemma foldl_lxor_acc (l : list taint_entity_t) (h k : Z) :
  foldl (λ h sub_entity, Z.lxor h (taint_entity_hash sub_entity)) (Z.lxor h k) l
  = Z.lxor (foldl (λ h sub_entity, Z.lxor h (taint_entity_hash sub_entity)) h l) k.
Proof.
  revert h. induction l as [|x l IHl]; intros h; simpl; [reflexivity|].
  rewrite <- IHl. f_equal.
  rewrite !Z.lxor_assoc. f_equal. apply Z.lxor_comm.
Qed.

Lemma foldl_lxor_perm (l l' : list taint_entity_t) (h : Z) :
  l ≡ₚ l' →
  foldl (λ h sub_entity, Z.lxor h (taint_entity_hash sub_entity)) h l
  = foldl (λ h sub_entity, Z.lxor h (taint_entity_hash sub_entity)) h l'.
Proof.
  intros Hperm. revert h.
  induction Hperm as [|x l l' _ IH|x y l|l l' l'' _ IH1 _ IH2]; intros h; simpl.
  - reflexivity.
  - apply IH.
  - f_equal. rewrite !Z.lxor_assoc. f_equal. apply Z.lxor_comm.
  - by rewrite IH1.
Qed.

(** X2: the hash of a memory reference does not depend on the order of its
    sub-entities: two [Mem] entities whose [mem_ref_entity_list]s are
    permutations of each other have the same hash. *)
Theorem taint_entity_hash_mem_permutation (a b : taint_entity_t) :
  entity_type a = TAINT_ENTITY_MEM → entity_type b = TAINT_ENTITY_MEM →
  mem_ref_entity_list a ≡ₚ mem_ref_entity_list b →
  taint_entity_hash a = taint_entity_hash b.
Proof.
  intros Ha Hb Hperm. rewrite !taint_entity_hash_unfold, Ha, Hb.
  by apply foldl_lxor_perm.
Qed.

(** X3: in the hash of a memory reference two sub-entities that are [==]
    cancel: the reference hashes like the one without the two. *)
Theorem taint_entity_hash_mem_cancel (a b x y : taint_entity_t)
    (l1 l2 l3 : list taint_entity_t) :
  entity_type a = TAINT_ENTITY_MEM → entity_type b = TAINT_ENTITY_MEM →
  taint_entity_eq x y = true →
  mem_ref_entity_list a = l1 ++ x :: l2 ++ y :: l3 →
  mem_ref_entity_list b = l1 ++ l2 ++ l3 →
  taint_entity_hash a = taint_entity_hash b.
Proof.
  intros Ha Hb Hxy Hla Hlb.
  rewrite !taint_entity_hash_unfold, Ha, Hb, Hla, Hlb.
  rewrite (foldl_lxor_perm (l1 ++ x :: l2 ++ y :: l3) (x :: y :: l1 ++ l2 ++ l3)).
  2:{ rewrite <- Permutation_middle. apply Permutation_skip.
      rewrite !app_assoc. by rewrite <- Permutation_middle. }
  simpl. rewrite !foldl_lxor_acc.
  rewrite (taint_entity_eq_hash x y Hxy).
  by rewrite Z.lxor_assoc, Z.lxor_nilpotent, Z.lxor_0_r.
Qed.

Lemma bucket_index_eq (n : Z) (x y : taint_entity_t) :
  taint_entity_eq x y = true → bucket_index n y = bucket_index n x.
Proof. intros Hxy. unfold bucket_index. by rewrite (taint_entity_eq_hash x y Hxy). Qed.

(** X4: a lookup through the hash table misses nothing: for any number of
    buckets, comparing only the elements in the bucket of [x] finds an
    element [==] to [x] exactly when the set holds one. *)
Theorem unordered_set_find_complete (bucket_count : Z) (x : taint_entity_t)
    (s : list taint_entity_t) :
  unordered_set_find bucket_count x s = existsb (taint_entity_eq x) s.
Proof.
  unfold unordered_set_find. induction s as [|y s IHs]; simpl; [reflexivity|].
  rewrite IHs. f_equal.
  destruct (taint_entity_eq x y) eqn:Hxy; [|apply andb_false_r].
  by rewrite (bucket_index_eq bucket_count x y Hxy), Z.eqb_refl.
Qed.
End hash_of_mem.

Lemma taint_entity_hash_mem_permutation_witness :
  taint_entity_hash (hash64 := identity_hash)
    (mem_entity [reg_entity 16 1; tmp_entity 3 1] 1)
  = taint_entity_hash (hash64 := identity_hash)
      (mem_entity [tmp_entity 3 1; reg_entity 16 1] 1)
  ∧ taint_entity_eq (mem_entity [reg_entity 16 1; tmp_entity 3 1] 1)
                    (mem_entity [tmp_entity 3 1; reg_entity 16 1] 1) = false.
Proof.
  split; [|reflexivity].
  apply (taint_entity_hash_mem_permutation (hash64 := identity_hash)
           (mem_entity [reg_entity 16 1; tmp_entity 3 1] 1)
           (mem_entity [tmp_entity 3 1; reg_entity 16 1] 1));
    [reflexivity | reflexivity | apply Permutation_swap].
Defined.

Lemma taint_entity_hash_mem_cancel_witness :
  taint_entity_hash (hash64 := identity_hash)
    (mem_entity [reg_entity 16 1; tmp_entity 3 1; reg_entity 16 2] 1)
  = taint_entity_hash (hash64 := identity_hash) (mem_entity [tmp_entity 3 1] 1).
Proof.
  apply (taint_entity_hash_mem_cancel (hash64 := identity_hash)
           (mem_entity [reg_entity 16 1; tmp_entity 3 1; reg_entity 16 2] 1)
           (mem_entity [tmp_entity 3 1] 1)
           (reg_entity 16 1) (reg_entity 16 2) [] [tmp_entity 3 1] []);
    reflexivity.
Defined.

(** ** Equality and order of instruction details *)

Lemma vector_eq_Zeqb (xs ys : list Z) : vector_eq Z.eqb xs ys = true ↔ xs = ys.
Proof.
  rewrite vector_eq_Forall2. split.
  - induction 1 as [|x y xs ys Hxy%Z.eqb_eq _ IH]; congruence.
  - intros ->. induction ys; constructor; [apply Z.eqb_refl | assumption].
Qed.

Lemma memory_value_eq_spec (a b : memory_value_t) :
  memory_value_eq a b = true
  ↔ mv_address a = mv_address b ∧ mv_size a = mv_size b
    ∧ take (Z.to_nat (mv_size a)) (mv_value a)
      = take (Z.to_nat (mv_size a)) (mv_value b).
Proof.
  unfold memory_value_eq.
  destruct (Z.eqb_spec (mv_address a) (mv_address b)) as [Haddr|Haddr];
    destruct (Z.eqb_spec (mv_size a) (mv_size b)) as [Hsize|Hsize]; simpl;
    rewrite ?vector_eq_Zeqb; split; try tauto; try discriminate; tauto.
Qed.

(** X5: [operator==] of memory values looks at the first [size] bytes of
    [value] only: changing a byte at an index from [size] on, in either
    operand, does not change the result. *)
Theorem memory_value_eq_ignores_bytes_past_size
    (a b : memory_value_t) (i : nat) (byte : Z) :
  (Z.to_nat (mv_size a) ≤ i)%nat →
  memory_value_eq (set_mv_value (<[i := byte]> (mv_value a)) a) b
  = memory_value_eq a b
  ∧ memory_value_eq a (set_mv_value (<[i := byte]> (mv_value b)) b)
    = memory_value_eq a b.
Proof.
  intros Hi. unfold memory_value_eq, set_mv_value; simpl.
  by rewrite !take_insert_ge.
Qed.

Lemma memory_value_eq_ignores_bytes_past_size_witness :
  memory_value_eq (Build_memory_value 32768 [1; 2; 9; 0; 0; 0; 0; 0] 2)
                  (Build_memory_value 32768 [1; 2; 0; 0; 0; 0; 0; 0] 2)
  = true.
Proof.
  apply (proj1 (memory_value_eq_ignores_bytes_past_size
                  (Build_memory_value 32768 [1; 2; 0; 0; 0; 0; 0; 0] 2)
                  (Build_memory_value 32768 [1; 2; 0; 0; 0; 0; 0; 0] 2)
                  2%nat 9 (le_n 2))).
Defined.

Lemma instr_details_eq_spec (a b : instr_details_t) :
  instr_details_eq a b = true
  ↔ id_instr_addr a = id_instr_addr b
    ∧ has_memory_dep a = has_memory_dep b
    ∧ memory_value_eq (memory_value a) (memory_value b) = true.
Proof.
  unfold instr_details_eq.
  rewrite !andb_true_iff, Z.eqb_eq, eqb_true_iff. tauto.
Qed.

(** X6: [operator==] of instruction details is an equivalence relation, and
    details that are [==] are equivalent in the order of [operator<]:
    neither is less than the other. *)
Theorem instr_details_eq_equivalence :
  (∀ a, instr_details_eq a a = true)
  ∧ (∀ a b, instr_details_eq a b = instr_details_eq b a)
  ∧ (∀ a b c, instr_details_eq a b = true → instr_details_eq b c = true →
              instr_details_eq a c = true)
  ∧ (∀ a b, instr_details_eq a b = true →
            instr_details_lt a b = false ∧ instr_details_lt b a = false).
Proof.
  split; [|split; [|split]].
  - intros a. apply instr_details_eq_spec.
    repeat split. by apply memory_value_eq_spec.
  - intros a b. apply eq_true_iff_eq.
    rewrite !instr_details_eq_spec, !memory_value_eq_spec.
    split; intros (? & ? & ? & Hsize & ?); repeat split; congruence.
  - intros a b c.
    rewrite !instr_details_eq_spec, !memory_value_eq_spec.
    intros (? & ? & ? & Hsize & ?) (? & ? & ? & Hsize' & Hbc).
    rewrite <- Hsize in Hbc. repeat split; congruence.
  - intros a b (Haddr & _)%instr_details_eq_spec.
    unfold instr_details_lt. rewrite Haddr. by rewrite Z.ltb_irrefl.
Qed.

Lemma instr_details_eq_equivalence_witness :
  instr_details_lt
    (Build_instr_details 4096 true (Build_memory_value 32768 [1; 2; 9] 2))
    (Build_instr_details 4096 true (Build_memory_value 32768 [1; 2; 0] 2))
  = false.
Proof.
  apply (proj2 (proj2 (proj2 instr_details_eq_equivalence))
           (Build_instr_details 4096 true (Build_memory_value 32768 [1; 2; 9] 2))
           (Build_instr_details 4096 true (Build_memory_value 32768 [1; 2; 0] 2))).
  reflexivity.
Defined.

(** X7: [operator<] of instruction details is a strict weak ordering, as
    [std::set] requires of its comparison: irreflexive, transitive, and with
    a transitive equivalence ("neither is less"). *)
Theorem instr_details_lt_strict_weak_order :
  (∀ a, instr_details_lt a a = false)
  ∧ (∀ a b c, instr_details_lt a b = true → instr_details_lt b c = true →
              instr_details_lt a c = true)
  ∧ (∀ a b c,
       instr_details_lt a b = false → instr_details_lt b a = false →
       instr_details_lt b c = false → instr_details_lt c b = false →
       instr_details_lt a c = false ∧ instr_details_lt c a = false).
Proof.
  unfold instr_details_lt. split; [|split].
  - intros a. apply Z.ltb_irrefl.
  - intros a b c. rewrite !Z.ltb_lt. lia.
  - intros a b c. rewrite !Z.ltb_ge. lia.
Qed.

Lemma instr_details_lt_strict_weak_order_witness :
  instr_details_lt
    (Build_instr_details 4096 false (Build_memory_value 0 [] 0))
    (Build_instr_details 4104 true (Build_memory_value 0 [] 0))
  = true.
Proof.
  apply (proj1 (proj2 instr_details_lt_strict_weak_order)
           (Build_instr_details 4096 false (Build_memory_value 0 [] 0))
           (Build_instr_details 4100 false (Build_memory_value 0 [] 0))
           (Build_instr_details 4104 true (Build_memory_value 0 [] 0)));
    reflexivity.
Defined.

(** ** Equality of taint entries is an equivalence *)

Lemma existsb_entity_eq (x : taint_entity_t) (s : list taint_entity_t) :
  existsb (taint_entity_eq x) s = true
  ↔ ∃ y, y ∈ s ∧ taint_entity_eq x y = true.
Proof.
  rewrite existsb_exists. split; intros (y & Hy & Hxy); exists y;
    split; try assumption; by apply list_elem_of_In.
Qed.

Lemma existsb_entity_eq_false (x : taint_entity_t) (s : list taint_entity_t) :
  existsb (taint_entity_eq x) s = false
  ↔ ∀ y, y ∈ s → taint_entity_eq x y = false.
Proof.
  rewrite <- not_true_iff_false, existsb_entity_eq. split.
  - intros Hno y Hy. apply not_true_is_false. intros Hxy. apply Hno. eauto.
  - intros Hall (y & Hy & Hxy). rewrite (Hall y Hy) in Hxy. discriminate.
Qed.

Lemma unordered_set_wf_cons (x : taint_entity_t) (s : list taint_entity_t) :
  unordered_set_wf (x :: s) = true
  ↔ (∀ y, y ∈ s → taint_entity_eq x y = false) ∧ unordered_set_wf s = true.
Proof.
  simpl. by rewrite andb_true_iff, negb_true_iff, existsb_entity_eq_false.
Qed.

Lemma unordered_set_eq_spec (a b : list taint_entity_t) :
  unordered_set_eq a b = true ↔ length a = length b ∧ unordered_set_incl a b.
Proof.
  unfold unordered_set_eq, unordered_set_incl.
  rewrite andb_true_iff, Z.eqb_eq, Nat2Z.inj_iff, forallb_forall.
  split; intros [Hlen Hin]; (split; [assumption|]); intros x Hx.
  - apply existsb_entity_eq, Hin. by apply list_elem_of_In.
  - apply existsb_entity_eq, Hin. by apply list_elem_of_In.
Qed.

(** Taking one element out of a set. *)
Lemma unordered_set_remove (y : taint_entity_t) (b : list taint_entity_t) :
  y ∈ b → unordered_set_wf b = true →
  ∃ b', length b = S (length b') ∧ unordered_set_wf b' = true
        ∧ (∀ z, z ∈ b → z = y ∨ z ∈ b')
        ∧ (∀ z, z ∈ b' → z ∈ b)
        ∧ (∀ z, z ∈ b' → taint_entity_eq y z = false).
Proof.
  induction b as [|z b IHb]; [by intros ?%elem_of_nil|].
  intros Hy [Hz Hwf]%unordered_set_wf_cons.
  apply elem_of_cons in Hy as [->|Hy].
  - exists b. repeat split; try assumption.
    + by intros w [->|Hw]%elem_of_cons; [left | right].
    + intros w Hw. by right.
  - destruct (IHb Hy Hwf) as (b' & Hlen & Hwf' & Hsplit & Hsub & Hne).
    exists (z :: b'). repeat split.
    + simpl. by rewrite Hlen.
    + apply unordered_set_wf_cons. split; [|assumption].
      intros w Hw. apply Hz, Hsub, Hw.
    + intros w [->|Hw]%elem_of_cons; [right; by left|].
      destruct (Hsplit w Hw) as [->|Hw']; [by left | right; by right].
    + intros w [->|Hw]%elem_of_cons; [by left | right; by apply Hsub].
    + intros w [->|Hw]%elem_of_cons; [|by apply Hne].
      rewrite taint_entity_eq_sym. by apply Hz.
Qed.

(** Between sets of the same size, inclusion goes both ways. *)
Lemma unordered_set_incl_converse (a : list taint_entity_t) :
  ∀ b, unordered_set_wf a = true → unordered_set_wf b = true →
       length a = length b →
       unordered_set_incl a b → unordered_set_incl b a.
Proof.
  induction a as [|x a IHa]; intros b Hwfa Hwfb Hlen Hincl.
  - destruct b; [|discriminate]. by intros z ?%elem_of_nil.
  - apply unordered_set_wf_cons in Hwfa as [Hx Hwfa].
    destruct (Hincl x) as (y & Hy & Hxy); [by left|].
    destruct (unordered_set_remove y b Hy Hwfb)
      as (b' & Hlen' & Hwfb' & Hsplit & Hsub & Hne).
    assert (unordered_set_incl b' a) as Hconv.
    { apply IHa; try assumption.
      - simpl in Hlen. lia.
      - intros x' Hx'. destruct (Hincl x') as (y' & Hy' & Hxy'); [by right|].
        destruct (Hsplit y' Hy') as [->|Hy'']; [|by exists y'].
        exfalso. specialize (Hx x' Hx').
        rewrite (taint_entity_eq_trans x y x') in Hx; [discriminate|assumption|].
        by rewrite taint_entity_eq_sym. }
    intros z Hz. destruct (Hsplit z Hz) as [->|Hz'].
    + exists x. split; [by left|]. by rewrite taint_entity_eq_sym.
    + destruct (Hconv z Hz') as (x' & Hx' & Hzx'). exists x'. split; [by right|assumption].
Qed.

Lemma unordered_set_eq_sym (a b : list taint_entity_t) :
  unordered_set_wf a = true → unordered_set_wf b = true →
  unordered_set_eq a b = true → unordered_set_eq b a = true.
Proof.
  intros Hwfa Hwfb [Hlen Hincl]%unordered_set_eq_spec.
  apply unordered_set_eq_spec. split; [done|].
  by apply unordered_set_incl_converse.
Qed.

Lemma unordered_set_eq_trans (a b c : list taint_entity_t) :
  unordered_set_eq a b = true → unordered_set_eq b c = true →
  unordered_set_eq a c = true.
Proof.
  intros [Hlen Hincl]%unordered_set_eq_spec [Hlen' Hincl']%unordered_set_eq_spec.
  apply unordered_set_eq_spec. split; [congruence|].
  intros x Hx. destruct (Hincl x Hx) as (y & Hy & Hxy).
  destruct (Hincl' y Hy) as (z & Hz & Hyz).
  exists z. split; [assumption|]. by apply (taint_entity_eq_trans x y z).
Qed.

Lemma vector_eq_sym_on {A : Type} (eqA : A → A → bool) (P : A → Prop)
    (xs ys : list A) :
  (∀ x y, P x → P y → eqA x y = true → eqA y x = true) →
  Forall P xs → Forall P ys →
  vector_eq eqA xs ys = true → vector_eq eqA ys xs = true.
Proof.
  intros Hsym Hxs. revert ys.
  induction Hxs as [|x xs Hx _ IH]; intros [|y ys] Hys; simpl; try done.
  inversion Hys; subst.
  intros [Hxy Hrest]%andb_true_iff. apply andb_true_iff. split; auto.
Qed.

Lemma vector_eq_trans {A : Type} (eqA : A → A → bool) (xs : list A) :
  (∀ x y z, eqA x y = true → eqA y z = true → eqA x z = true) →
  ∀ ys zs, vector_eq eqA xs ys = true → vector_eq eqA ys zs = true →
           vector_eq eqA xs zs = true.
Proof.
  intros Htrans. induction xs as [|x xs IH]; intros [|y ys] [|z zs]; simpl; try done.
  intros [Hxy Hrest]%andb_true_iff [Hyz Hrest']%andb_true_iff.
  apply andb_true_iff. split; eauto.
Qed.

Lemma instruction_taint_entry_eq_sym (a b : instruction_taint_entry_t) :
  instruction_taint_entry_wf a → instruction_taint_entry_wf b →
  instruction_taint_entry_eq a b = true → instruction_taint_entry_eq b a = true.
Proof.
  intros (Hmapa & Hdepa & _) (Hmapb & Hdepb & _).
  unfold instruction_taint_entry_eq. rewrite !andb_true_iff, !eqb_true_iff.
  intros (((Hmap & Hdeps) & Hrd) & Hwr). repeat split; try congruence.
  - revert Hmap. unfold taint_vector_eq.
    apply (vector_eq_sym_on _ (λ p, unordered_set_wf p.2 = true)); try assumption.
    intros [x xs] [y ys] Hxs Hys. unfold pair_eq; simpl in *.
    intros [Hxy Hsets]%andb_true_iff. apply andb_true_iff. split.
    + by rewrite taint_entity_eq_sym.
    + by apply unordered_set_eq_sym.
  - by apply unordered_set_eq_sym.
Qed.

Lemma instruction_taint_entry_eq_trans (a b c : instruction_taint_entry_t) :
  instruction_taint_entry_eq a b = true → instruction_taint_entry_eq b c = true →
  instruction_taint_entry_eq a c = true.
Proof.
  unfold instruction_taint_entry_eq. rewrite !andb_true_iff, !eqb_true_iff.
  intros (((Hmap & Hdeps) & Hrd) & Hwr) (((Hmap' & Hdeps') & Hrd') & Hwr').
  repeat split; try congruence.
  - revert Hmap Hmap'. unfold taint_vector_eq. apply vector_eq_trans.
    intros [x xs] [y ys] [z zs]. unfold pair_eq; simpl.
    intros [Hxy Hs]%andb_true_iff [Hyz Hs']%andb_true_iff.
    apply andb_true_iff. split.
    + by apply (taint_entity_eq_trans x y z).
    + by apply (unordered_set_eq_trans xs ys zs).
  - by apply (unordered_set_eq_trans _ (dependencies_to_save b)).
Qed.

(** X8: on entries whose sets hold no two [==] entities, [operator==] of
    instruction taint entries is symmetric and transitive. *)
Theorem instruction_taint_entry_eq_sym_trans (a b c : instruction_taint_entry_t) :
  instruction_taint_entry_wf a → instruction_taint_entry_wf b →
  (instruction_taint_entry_eq a b = true → instruction_taint_entry_eq b a = true)
  ∧ (instruction_taint_entry_eq a b = true →
     instruction_taint_entry_eq b c = true →
     instruction_taint_entry_eq a c = true).
Proof.
  intros Hwfa Hwfb. split.
  - by apply instruction_taint_entry_eq_sym.
  - apply instruction_taint_entry_eq_trans.
Qed.

Lemma sample_instr_entry_wf (ite : list taint_entity_t) (regs : list (Z * bool)) :
  unordered_set_wf ite = true → instruction_taint_entry_wf (sample_instr_entry ite regs).
Proof. intros Hite. split; [|split]; try done. by repeat constructor. Qed.

Lemma instruction_taint_entry_eq_sym_trans_witness :
  instruction_taint_entry_eq
    (sample_instr_entry [tmp_entity 2 0] [(16, true)])
    (sample_instr_entry [] []) = true.
Proof.
  apply (proj1 (instruction_taint_entry_eq_sym_trans
                  (sample_instr_entry [] [])
                  (sample_instr_entry [tmp_entity 2 0] [(16, true)])
                  (sample_instr_entry [] [])
                  (sample_instr_entry_wf [] [] eq_refl)
                  (sample_instr_entry_wf [tmp_entity 2 0] [(16, true)] eq_refl))).
  reflexivity.
Defined.

(** X9: on entries whose sets hold no two [==] entities, [operator==] of
    block taint entries is symmetric and transitive. *)
Theorem block_taint_entry_eq_sym_trans (a b c : block_taint_entry_t) :
  block_taint_entry_wf a → block_taint_entry_wf b →
  (block_taint_entry_eq a b = true → block_taint_entry_eq b a = true)
  ∧ (block_taint_entry_eq a b = true → block_taint_entry_eq b c = true →
     block_taint_entry_eq a c = true).
Proof.
  intros [Hmapa Hexa] [Hmapb Hexb]. unfold block_taint_entry_eq.
  rewrite !andb_true_iff. split.
  - intros [Hmap Hex]. split; [|by apply unordered_set_eq_sym].
    revert Hmap. unfold std_map_eq.
    apply (vector_eq_sym_on _ (λ p, instruction_taint_entry_wf p.2));
      try assumption.
    intros [k e] [k' e'] He He'. unfold pair_eq; simpl in *.
    intros [Hk Hee]%andb_true_iff. apply andb_true_iff. split.
    + by rewrite Z.eqb_sym.
    + by apply instruction_taint_entry_eq_sym.
  - intros [Hmap Hex] [Hmap' Hex']. split.
    + revert Hmap Hmap'. unfold std_map_eq. apply vector_eq_trans.
      intros [k1 e1] [k2 e2] [k3 e3]. unfold pair_eq; simpl.
      intros [Hk He]%andb_true_iff [Hk' He']%andb_true_iff.
      apply andb_true_iff. split.
      * apply Z.eqb_eq in Hk, Hk'. apply Z.eqb_eq. congruence.
      * by apply (instruction_taint_entry_eq_trans e1 e2 e3).
    + by apply (unordered_set_eq_trans _ (exit_stmt_guard_expr_deps b)).
Qed.

Lemma sample_block_entry_wf (exit_addr : Z) (unsupported : bool) (reason : stop_t) :
  block_taint_entry_wf (sample_block_entry exit_addr unsupported reason).
Proof.
  split; [|done]. repeat constructor.
Qed.

Lemma block_taint_entry_eq_sym_trans_witness :
  block_taint_entry_eq
    (sample_block_entry 4200 true STOP_UNSUPPORTED_STMT_CAS)
    (sample_block_entry 4100 false STOP_NORMAL) = true.
Proof.
  apply (proj1 (block_taint_entry_eq_sym_trans
                  (sample_block_entry 4100 false STOP_NORMAL)
                  (sample_block_entry 4200 true STOP_UNSUPPORTED_STMT_CAS)
                  (sample_block_entry 4100 false STOP_NORMAL)
                  (sample_block_entry_wf 4100 false STOP_NORMAL)
                  (sample_block_entry_wf 4200 true STOP_UNSUPPORTED_STMT_CAS))).
  reflexivity.
Defined.

(** ** Sub-registers and dependency registers *)

(** X10: on a sub-register map that names full registers only,
    [get_full_register_offset] is idempotent: the offset it returns is the
    offset of a full register, which it maps to itself. *)
Theorem get_full_register_offset_idempotent (s : State) (reg_offset : Z) :
  sub_reg_map_flat s →
  get_full_register_offset s (get_full_register_offset s reg_offset)
  = get_full_register_offset s reg_offset.
Proof.
  intros Hflat. unfold get_full_register_offset.
  destruct (vex_sub_reg_map s !! reg_offset) as [full|] eqn:Hsub.
  - by rewrite (Hflat _ _ Hsub).
  - by rewrite Hsub.
Qed.

Lemma sample_state_sub_reg_map_flat (a m : Z) : sub_reg_map_flat (sample_state a m).
Proof.
  intros sub full. unfold sample_state; simpl.
  intros [<- <-]%lookup_singleton_Some.
  by apply lookup_singleton_ne.
Qed.

Lemma get_full_register_offset_idempotent_witness :
  get_full_register_offset (sample_state 4 8)
    (get_full_register_offset (sample_state 4 8) 17) = 16.
Proof.
  exact (get_full_register_offset_idempotent (sample_state 4 8) 17
           (sample_state_sub_reg_map_flat 4 8)).
Defined.

(** The lookup follows one entry of the map and no more: on a map that
    chains two entries the result is mapped further. *)
Example get_full_register_offset_one_level :
  get_full_register_offset chained_sub_reg_state 17 = 16
  ∧ get_full_register_offset chained_sub_reg_state 16 = 8.
Proof. by split. Qed.

(** X11: [is_blacklisted_register] holds exactly of the registers in
    [blacklisted_registers], and it excludes [is_valid_dependency_register]:
    no register satisfies both. *)
Theorem is_blacklisted_register_excludes_valid (s : State) (reg_offset : Z) :
  (is_blacklisted_register s reg_offset = true
   ↔ reg_offset ∈ blacklisted_registers s)
  ∧ (is_blacklisted_register s reg_offset
     && is_valid_dependency_register s reg_offset = false).
Proof.
  unfold is_blacklisted_register, is_valid_dependency_register,
    unordered_set_count.
  destruct (decide (reg_offset ∈ blacklisted_registers s)) as [Hin|Hin]; simpl.
  - split; [tauto|]. apply andb_false_r.
  - split; [|reflexivity]. split; [discriminate | tauto].
Qed.

(** ** Stack-pointer lookup and the sentinel *)

Section arch_switch.
Context `{!ExternConstants}.

(** The cases of the [switch] over [arch]. *)
Lemma arch_switch_cases {A : Type} (P : A → Prop) (s : State)
    (x86 arm arm64 mips dflt : A) :
  (arch s = UC_ARCH_X86 → P x86) →
  (arch s = UC_ARCH_ARM → P arm) →
  (arch s = UC_ARCH_ARM64 → P arm64) →
  (arch s = UC_ARCH_MIPS → P mips) →
  (¬ supported_arch (arch s) → P dflt) →
  P (if arch s =? UC_ARCH_X86 then x86
     else if arch s =? UC_ARCH_ARM then arm
     else if arch s =? UC_ARCH_ARM64 then arm64
     else if arch s =? UC_ARCH_MIPS then mips
     else dflt).
Proof.
  intros Hx86 Harm Harm64 Hmips Hdflt.
  destruct (Z.eqb_spec (arch s) UC_ARCH_X86); [auto|].
  destruct (Z.eqb_spec (arch s) UC_ARCH_ARM); [auto|].
  destruct (Z.eqb_spec (arch s) UC_ARCH_ARM64); [auto|].
  destruct (Z.eqb_spec (arch s) UC_ARCH_MIPS); [auto|].
  apply Hdflt. unfold supported_arch.
  rewrite !elem_of_cons, elem_of_nil. tauto.
Qed.

(** X12: for an architecture outside x86, ARM, ARM64 and MIPS the
    stack-pointer lookup returns the sentinel, [-1] as an [unsigned int];
    for each of the four it returns the stack pointer of the architecture,
    chosen by the 64-bit mode for x86. *)
Theorem arch_sp_lookup (s : State) :
  (¬ supported_arch (arch s) → arch_sp_reg s = NO_SUCH_REGISTER)
  ∧ (arch s = UC_ARCH_X86 →
       arch_sp_reg s =
         uint32 (if mode s =? UC_MODE_64 then UC_X86_REG_RSP else UC_X86_REG_ESP))
  ∧ (arch s = UC_ARCH_ARM → arch_sp_reg s = uint32 UC_ARM_REG_SP)
  ∧ (arch s = UC_ARCH_ARM64 → arch_sp_reg s = uint32 UC_ARM64_REG_SP)
  ∧ (arch s = UC_ARCH_MIPS → arch_sp_reg s = uint32 UC_MIPS_REG_SP).
Proof.
  destruct uc_arch_labels_ne as (Hxa & Hxa64 & Hxm & Haa64 & Ham & Ha64m).
  unfold arch_sp_reg, NO_SUCH_REGISTER.
  split.
  { intros Hno. apply arch_switch_cases; intros Harch; try reflexivity;
      exfalso; apply Hno; unfold supported_arch;
      rewrite Harch, !elem_of_cons; tauto. }
  repeat apply conj; intros Harch; apply arch_switch_cases;
    intros Harch'; try reflexivity; try congruence;
    exfalso; apply Harch'; unfold supported_arch;
    rewrite Harch, !elem_of_cons; tauto.
Qed.

Lemma uint32_in_range (c : Z) :
  0 ≤ c < 2 ^ 32 - 1 → uint32 c ≠ NO_SUCH_REGISTER.
Proof.
  unfold NO_SUCH_REGISTER, uint32. change (2 ^ 32) with 4294967296.
  intros Hc. rewrite Z.mod_small by lia.
  change (-1 mod 4294967296) with 4294967295. lia.
Qed.

Lemma arch_switch_sentinel (s : State) (x86 arm arm64 mips : Z) :
  0 ≤ x86 < 2 ^ 32 - 1 → 0 ≤ arm < 2 ^ 32 - 1 →
  0 ≤ arm64 < 2 ^ 32 - 1 → 0 ≤ mips < 2 ^ 32 - 1 →
  uint32 (if arch s =? UC_ARCH_X86 then x86
          else if arch s =? UC_ARCH_ARM then arm
          else if arch s =? UC_ARCH_ARM64 then arm64
          else if arch s =? UC_ARCH_MIPS then mips
          else -1) = NO_SUCH_REGISTER
  ↔ ¬ supported_arch (arch s).
Proof.
  intros Hx86 Harm Harm64 Hmips.
  apply (arch_switch_cases
           (λ v, uint32 v = NO_SUCH_REGISTER ↔ ¬ supported_arch (arch s)));
    intros Harch.
  5: { split; [by intros _ | reflexivity]. }
  all: split; [by intros ?%uint32_in_range|];
       intros Hno; exfalso; apply Hno; unfold supported_arch;
       rewrite Harch, !elem_of_cons; tauto.
Qed.

(** X13: when the register identifiers and offsets of the supported
    architectures are below the largest [unsigned int], the sentinel tells
    the unsupported architectures apart: each of the three lookups returns
    it exactly for the architectures outside x86, ARM, ARM64 and MIPS. *)
Theorem arch_lookups_sentinel_iff_unsupported (s : State) :
  reg_ids_in_range →
  (arch_pc_reg_vex_offset s = NO_SUCH_REGISTER ↔ ¬ supported_arch (arch s))
  ∧ (arch_pc_reg s = NO_SUCH_REGISTER ↔ ¬ supported_arch (arch s))
  ∧ (arch_sp_reg s = NO_SUCH_REGISTER ↔ ¬ supported_arch (arch s)).
Proof.
  unfold reg_ids_in_range. rewrite !Forall_cons.
  intros (? & ? & ? & ? & ? & ? & ? & ? & ? & ? & ? & ? & ? & ? & ? & ? & _).
  unfold arch_pc_reg_vex_offset, arch_pc_reg, arch_sp_reg.
  repeat apply conj; apply arch_switch_sentinel;
    try assumption; by destruct (mode s =? UC_MODE_64).
Qed.
End arch_switch.

Lemma arch_sp_lookup_witness :
  arch_sp_reg (sample_state 5 4) = 4294967295
  ∧ arch_sp_reg (sample_state 4 8) = 44
  ∧ arch_sp_reg (sample_state 1 0) = 12.
Proof.
  split; [|split].
  - apply (proj1 (arch_sp_lookup (sample_state 5 4))).
    unfold supported_arch. simpl. rewrite !elem_of_cons, elem_of_nil. lia.
  - exact (proj1 (proj2 (arch_sp_lookup (sample_state 4 8))) eq_refl).
  - exact (proj1 (proj2 (proj2 (arch_sp_lookup (sample_state 1 0)))) eq_refl).
Defined.

Lemma sample_reg_ids_in_range : reg_ids_in_range.
Proof. unfold reg_ids_in_range. repeat constructor; simpl; lia. Qed.

Lemma arch_lookups_sentinel_iff_unsupported_witness :
  ¬ supported_arch (arch (sample_state 5 4)).
Proof.
  apply (proj1 (proj2 (arch_lookups_sentinel_iff_unsupported (sample_state 5 4)
                         sample_reg_ids_in_range))).
  reflexivity.
Defined.

(** ** What a set of instruction details keeps *)

Lemma std_set_insert_keeps (x y : instr_details_t) (s : list instr_details_t) :
  y ∈ s → y ∈ std_set_insert instr_details_lt x s.
Proof.
  induction s as [|z s IHs]; [by intros ?%elem_of_nil|]. simpl.
  destruct (instr_details_lt x z); [by right|].
  destruct (instr_details_lt z x); [|done].
  intros [->|Hy]%elem_of_cons; [by left | right; by apply IHs].
Qed.

Lemma std_set_insert_new (x : instr_details_t) (s : list instr_details_t) :
  id_instr_addr x ∉ id_instr_addr <$> s →
  x ∈ std_set_insert instr_details_lt x s.
Proof.
  induction s as [|z s IHs]; simpl; [intros _; by left|].
  rewrite not_elem_of_cons. intros [Hne Hnin].
  destruct (instr_details_lt x z) eqn:Hxz; [by left|].
  destruct (instr_details_lt z x) eqn:Hzx; [right; by apply IHs|].
  unfold instr_details_lt in Hxz, Hzx.
  apply Z.ltb_ge in Hxz, Hzx. lia.
Qed.

Lemma fold_std_set_insert_keeps (xs s : list instr_details_t) (y : instr_details_t) :
  y ∈ s → y ∈ fold_left (λ s x, std_set_insert instr_details_lt x s) xs s.
Proof.
  revert s. induction xs as [|x xs IHxs]; intros s Hy; simpl; [assumption|].
  by apply IHxs, std_set_insert_keeps.
Qed.

Lemma fold_std_set_insert_from (xs s : list instr_details_t) (y : instr_details_t) :
  y ∈ fold_left (λ s x, std_set_insert instr_details_lt x s) xs s →
  y ∈ s ∨ y ∈ xs.
Proof.
  revert s. induction xs as [|x xs IHxs]; intros s; simpl; [by left|].
  intros [[->|Hy]%std_set_insert_elem|Hy]%IHxs.
  - right. by left.
  - by left.
  - right. by right.
Qed.

(** X14: a set of instruction details built by insertions holds only
    inserted details, and for every address the details inserted first: the
    details [x] are in the set whenever no details inserted before [x] have
    the address of [x], whatever is inserted after. *)
Theorem instr_details_set_first_insertion_wins
    (before after : list instr_details_t) (x : instr_details_t) :
  id_instr_addr x ∉ id_instr_addr <$> before →
  x ∈ std_set_of instr_details_lt (before ++ x :: after)
  ∧ ∀ y, y ∈ std_set_of instr_details_lt (before ++ x :: after) →
         y ∈ before ++ x :: after.
Proof.
  intros Hfirst. unfold std_set_of. split.
  - rewrite fold_left_app. simpl. apply fold_std_set_insert_keeps.
    apply std_set_insert_new. intros (y & Haddr & Hy)%list_elem_of_fmap.
    apply Hfirst. apply list_elem_of_fmap. exists y. split; [assumption|].
    apply fold_std_set_insert_from in Hy as [Hy|Hy]; [|assumption].
    by apply elem_of_nil in Hy.
  - intros y [Hy|Hy]%fold_std_set_insert_from; [|assumption].
    by apply elem_of_nil in Hy.
Qed.

Lemma instr_details_set_first_insertion_wins_witness :
  Build_instr_details 4096 false (Build_memory_value 0 [] 0)
  ∈ std_set_of instr_details_lt
      ([Build_instr_details 4100 false (Build_memory_value 0 [] 0)]
       ++ Build_instr_details 4096 false (Build_memory_value 0 [] 0)
       :: [Build_instr_details 4096 true (Build_memory_value 32768 [1; 2] 2)]).
Proof.
  apply (instr_details_set_first_insertion_wins
           [Build_instr_details 4100 false (Build_memory_value 0 [] 0)]
           [Build_instr_details 4096 true (Build_memory_value 32768 [1; 2] 2)]
           (Build_instr_details 4096 false (Build_memory_value 0 [] 0))).
  simpl. rewrite list_elem_of_singleton. lia.
Defined.
